(** * SIP calculator: the calculation engine of [src/SIPCalculator.jsx]

    The five functions of the [sipUtils] object are embedded as Rocq
    functions.  JavaScript numbers are idealised as exact rationals ([Q]):
    every arithmetic operation of the source is the corresponding exact
    operation, so rounding error, overflow and the non-finite values
    ([Infinity], [NaN]) of IEEE doubles are outside the model.  Equality of
    monetary amounts is therefore [Qeq] ([==]).  Integer-valued quantities
    of the source (the year counters, the horizon [years], the results of
    [Math.round] and [Math.floor]) are in [Z]. *)

From Stdlib Require Import ZArith QArith Qround Qpower Qfield Lqa Lia List Bool.
From Stdlib Require Import Sorting.Sorted.
From Stdlib Require String Ascii DecimalString DecimalZ DecimalPos.
Import ListNotations.

Open Scope Q_scope.

(** ** The JavaScript primitives the engine uses *)

Module Js.

(** [Math.round x]: the nearest integer, ties towards plus infinity. *)
Definition Math_round (x : Q) : Z := Qfloor (x + (1 # 2)).

(** [Math.pow b e] at an integer exponent. *)
Definition Math_pow (b : Q) (e : Z) : Q := b ^ e.

(** [Math.floor (n / d)] for integers [n] and a positive integer [d]. *)
Definition Math_floor_div (n d : Z) : Z := Qfloor (inject_Z n / inject_Z d).

(** [a === b] on numbers. *)
Definition strict_eq (a b : Q) : bool := Qeq_bool a b.

Section ForLoop.
Context {St : Type}.

(** [n] iterations of [body], the counter starting at [i]. *)
Fixpoint for_iter (n : nat) (i : Z) (body : Z -> St -> St) (s : St) : St :=
  match n with
  | O => s
  | S n' => for_iter n' (i + 1)%Z body (body i s)
  end.

(** [for (let i = lo; i <= hi; i++) body] on the loop's variables [s]. *)
Definition for_loop (lo hi : Z) (body : Z -> St -> St) (s : St) : St :=
  for_iter (Z.to_nat (hi - lo + 1)) lo body s.
End ForLoop.

End Js.

(** ** The records the engine emits *)

Module YearRecord.
Record t : Type := mk
  { year : Z;
    monthlyInvestment : Z;
    yearlyInvestment : Z;
    totalInvested : Z;
    yearEndValue : Z;
    returns : Z }.
End YearRecord.

Module ChartPoint.
Record t : Type := mk
  { year : Z;
    Normal_SIP : Z;
    Step_Up_SIP : Z }.
End ChartPoint.

(** ** [sipUtils] *)

Module sipUtils.
Import Js.

Definition calculateNormalSIP (monthlyInvestment annualReturn : Q) (years : Z) : Q :=
  let monthlyRate := annualReturn / 12 / 100 in
  let months := (years * 12)%Z in
  if strict_eq monthlyRate 0 then
    monthlyInvestment * inject_Z months
  else
    let futureValue :=
      monthlyInvestment *
      (Math_pow (1 + monthlyRate) months - 1) /
      monthlyRate *
      (1 + monthlyRate) in
    futureValue.

(** The variables of the loops of [calculateStepUpSIP]. *)
Record StepUpVars : Type := mkStepUp
  { su_totalValue : Q;
    su_currentMonthlyInvestment : Q }.

Definition stepUpMonth (monthlyRate : Q) (_month : Z) (s : StepUpVars) : StepUpVars :=
  {| su_totalValue :=
       (su_totalValue s + su_currentMonthlyInvestment s) * (1 + monthlyRate);
     su_currentMonthlyInvestment := su_currentMonthlyInvestment s |}.

Definition stepUpYear (monthlyRate stepUpPercent : Q) (_year : Z) (s : StepUpVars)
  : StepUpVars :=
  let s1 := for_loop 1 12 (stepUpMonth monthlyRate) s in
  {| su_totalValue := su_totalValue s1;
     su_currentMonthlyInvestment :=
       su_currentMonthlyInvestment s1 * (1 + stepUpPercent / 100) |}.

Definition calculateStepUpSIP (monthlyInvestment annualReturn : Q) (years : Z)
    (stepUpPercent : Q) : Q :=
  let monthlyRate := annualReturn / 12 / 100 in
  let s0 := {| su_totalValue := 0;
               su_currentMonthlyInvestment := monthlyInvestment |} in
  su_totalValue (for_loop 1 years (stepUpYear monthlyRate stepUpPercent) s0).

Definition calculateInflationAdjusted (futureValue inflationRate : Q) (years : Z) : Q :=
  futureValue / Math_pow (1 + inflationRate / 100) years.

(** The variables of the loops of [generateYearlyBreakdown]; [bd_yearlyInvestment]
    is the [let] of the outer loop's body, reset at the start of each year. *)
Record BreakdownVars : Type := mkBreakdown
  { bd_breakdown : list YearRecord.t;
    bd_totalValue : Q;
    bd_currentMonthlyInvestment : Q;
    bd_totalInvested : Q;
    bd_yearlyInvestment : Q }.

Definition breakdownMonth (monthlyRate : Q) (_month : Z) (s : BreakdownVars)
  : BreakdownVars :=
  {| bd_breakdown := bd_breakdown s;
     bd_totalValue :=
       (bd_totalValue s + bd_currentMonthlyInvestment s) * (1 + monthlyRate);
     bd_currentMonthlyInvestment := bd_currentMonthlyInvestment s;
     bd_totalInvested := bd_totalInvested s + bd_currentMonthlyInvestment s;
     bd_yearlyInvestment := bd_yearlyInvestment s + bd_currentMonthlyInvestment s |}.

Definition breakdownYear (monthlyRate stepUpPercent : Q) (year : Z) (s : BreakdownVars)
  : BreakdownVars :=
  let s0 := {| bd_breakdown := bd_breakdown s;
               bd_totalValue := bd_totalValue s;
               bd_currentMonthlyInvestment := bd_currentMonthlyInvestment s;
               bd_totalInvested := bd_totalInvested s;
               bd_yearlyInvestment := 0 |} in
  let s1 := for_loop 1 12 (breakdownMonth monthlyRate) s0 in
  let pushed :=
    bd_breakdown s1 ++
    [ {| YearRecord.year := year;
         YearRecord.monthlyInvestment := Math_round (bd_currentMonthlyInvestment s1);
         YearRecord.yearlyInvestment := Math_round (bd_yearlyInvestment s1);
         YearRecord.totalInvested := Math_round (bd_totalInvested s1);
         YearRecord.yearEndValue := Math_round (bd_totalValue s1);
         YearRecord.returns := Math_round (bd_totalValue s1 - bd_totalInvested s1) |} ] in
  {| bd_breakdown := pushed;
     bd_totalValue := bd_totalValue s1;
     bd_currentMonthlyInvestment :=
       bd_currentMonthlyInvestment s1 * (1 + stepUpPercent / 100);
     bd_totalInvested := bd_totalInvested s1;
     bd_yearlyInvestment := bd_yearlyInvestment s1 |}.

Definition breakdownInit (monthlyInvestment : Q) : BreakdownVars :=
  {| bd_breakdown := [];
     bd_totalValue := 0;
     bd_currentMonthlyInvestment := monthlyInvestment;
     bd_totalInvested := 0;
     bd_yearlyInvestment := 0 |}.

Definition generateYearlyBreakdown (monthlyInvestment annualReturn : Q) (years : Z)
    (stepUpPercent : Q) : list YearRecord.t :=
  let monthlyRate := annualReturn / 12 / 100 in
  bd_breakdown
    (for_loop 1 years (breakdownYear monthlyRate stepUpPercent)
       (breakdownInit monthlyInvestment)).

(** The variables of the loops of [generateChartData]. *)
Record ChartVars : Type := mkChart
  { ch_data : list ChartPoint.t;
    ch_normalValue : Q;
    ch_stepUpValue : Q;
    ch_stepUpMonthly : Q }.

Definition chartMonth (monthlyInvestment monthlyRate : Q) (_month : Z) (s : ChartVars)
  : ChartVars :=
  {| ch_data := ch_data s;
     ch_normalValue := (ch_normalValue s + monthlyInvestment) * (1 + monthlyRate);
     ch_stepUpValue := (ch_stepUpValue s + ch_stepUpMonthly s) * (1 + monthlyRate);
     ch_stepUpMonthly := ch_stepUpMonthly s |}.

(** The test of line 86: [year % Math.max(1, Math.floor(years / 10)) === 0 ||
    year === years].  [%] is the truncating remainder. *)
Definition chartSampled (years year : Z) : bool :=
  (Z.rem year (Z.max 1 (Math_floor_div years 10)) =? 0)%Z || (year =? years)%Z.

Definition chartYear (monthlyInvestment monthlyRate stepUpPercent : Q) (years : Z)
    (year : Z) (s : ChartVars) : ChartVars :=
  let s1 := for_loop 1 12 (chartMonth monthlyInvestment monthlyRate) s in
  let data :=
    if chartSampled years year then
      ch_data s1 ++
      [ {| ChartPoint.year := year;
           ChartPoint.Normal_SIP := Math_round (ch_normalValue s1);
           ChartPoint.Step_Up_SIP := Math_round (ch_stepUpValue s1) |} ]
    else ch_data s1 in
  {| ch_data := data;
     ch_normalValue := ch_normalValue s1;
     ch_stepUpValue := ch_stepUpValue s1;
     ch_stepUpMonthly := ch_stepUpMonthly s1 * (1 + stepUpPercent / 100) |}.

Definition chartInit (monthlyInvestment : Q) : ChartVars :=
  {| ch_data := [];
     ch_normalValue := 0;
     ch_stepUpValue := 0;
     ch_stepUpMonthly := monthlyInvestment |}.

Definition generateChartData (monthlyInvestment annualReturn : Q) (years : Z)
    (stepUpPercent : Q) : list ChartPoint.t :=
  let monthlyRate := annualReturn / 12 / 100 in
  ch_data
    (for_loop 1 years (chartYear monthlyInvestment monthlyRate stepUpPercent years)
       (chartInit monthlyInvestment)).

End sipUtils.

Import Js sipUtils.

(** ** Auxiliary definitions for the statements *)

(** The years [1 .. n] in the order the loops visit them. *)
Definition yearsUpTo (n : nat) : list Z := map Z.of_nat (seq 1 n).

(** The sampling stride [Math.max(1, Math.floor(years / 10))] of the chart. *)
Definition chartStride (years : Z) : Z := Z.max 1 (years / 10).

(** The variables of [generateChartData] after [n] iterations of its loop
    over the years. *)
Definition chartAfter (monthlyInvestment monthlyRate stepUpPercent : Q) (years : Z)
    (n : nat) : ChartVars :=
  for_iter n 1 (chartYear monthlyInvestment monthlyRate stepUpPercent years)
    (chartInit monthlyInvestment).

(** The balance [n] months later: each month the contribution [c] is added
    and the sum is compounded at [rate] (the assignment of lines 29, 52, 82
    and 83, iterated). *)
Definition compound (c rate : Q) (n : nat) (v : Q) : Q :=
  Nat.iter n (fun v' => (v' + c) * (1 + rate)) v.

(** The variables of [calculateStepUpSIP] after [n] iterations of its loop
    over the years. *)
Definition stepUpAfter (monthlyInvestment monthlyRate stepUpPercent : Q) (n : nat)
  : StepUpVars :=
  for_iter n 1 (stepUpYear monthlyRate stepUpPercent)
    {| su_totalValue := 0; su_currentMonthlyInvestment := monthlyInvestment |}.

(** The variables of [generateYearlyBreakdown] after [n] iterations of its
    loop over the years. *)
Definition breakdownAfter (monthlyInvestment monthlyRate stepUpPercent : Q) (n : nat)
  : BreakdownVars :=
  for_iter n 1 (breakdownYear monthlyRate stepUpPercent)
    (breakdownInit monthlyInvestment).

(** The record pushed in iteration [n + 1], from the variables before and
    after that iteration. *)
Definition yearRecordAt (monthlyInvestment monthlyRate stepUpPercent : Q) (n : nat)
  : YearRecord.t :=
  let before := breakdownAfter monthlyInvestment monthlyRate stepUpPercent n in
  let after := breakdownAfter monthlyInvestment monthlyRate stepUpPercent (S n) in
  {| YearRecord.year := 1 + Z.of_nat n;
     YearRecord.monthlyInvestment := Math_round (bd_currentMonthlyInvestment before);
     YearRecord.yearlyInvestment := Math_round (bd_yearlyInvestment after);
     YearRecord.totalInvested := Math_round (bd_totalInvested after);
     YearRecord.yearEndValue := Math_round (bd_totalValue after);
     YearRecord.returns := Math_round (bd_totalValue after - bd_totalInvested after) |}.

(** The running total of what was paid in, [n] months later (lines 53 and
    54, iterated). *)
Definition paidIn (c : Q) (n : nat) (t : Q) : Q :=
  Nat.iter n (fun t' => t' + c) t.

(** A record, or a chart point, all of whose amounts are 0. *)
Definition zeroRecord (rec : YearRecord.t) : Prop :=
  YearRecord.monthlyInvestment rec = 0%Z /\ YearRecord.yearlyInvestment rec = 0%Z
  /\ YearRecord.totalInvested rec = 0%Z /\ YearRecord.yearEndValue rec = 0%Z
  /\ YearRecord.returns rec = 0%Z.

Definition zeroPoint (pt : ChartPoint.t) : Prop :=
  ChartPoint.Normal_SIP pt = 0%Z /\ ChartPoint.Step_Up_SIP pt = 0%Z.

(** The chart point of year [y]: the two balances after [y] years, rounded. *)
Definition chartPointAt (monthlyInvestment monthlyRate stepUpPercent : Q) (y : Z)
  : ChartPoint.t :=
  {| ChartPoint.year := y;
     ChartPoint.Normal_SIP :=
       Math_round (compound monthlyInvestment monthlyRate (12 * Z.to_nat y) 0);
     ChartPoint.Step_Up_SIP :=
       Math_round (su_totalValue
         (stepUpAfter monthlyInvestment monthlyRate stepUpPercent (Z.to_nat y))) |}.

(** ** The component [SIPCalculator]: the effect that recomputes the results

    The effect of lines 112-163 runs on every change of the five inputs and
    sets the three state variables [results], [chartData] and
    [yearlyBreakdown].  It is embedded as the function from the inputs to the
    values it sets.  The present value of the contributions raises the
    inflation factor to [m / 12], which is not whole; [Math.pow] at such an
    exponent has no exact rational value, so it is a parameter of the
    embedding, [Math_pow_frac]. *)

Module Summary.
Record t : Type := mk
  { futureValue : Q;
    totalInvested : Q;
    totalInvestedInflationAdjusted : Z;
    returns : Q;
    inflationAdjusted : Q;
    realReturns : Z }.
End Summary.

Module Results.
Record t : Type := mk
  { normal : Summary.t;
    stepUp : Summary.t }.
End Results.

Module SIPCalculator.

(** What the effect sets. *)
Record State : Type := mkState
  { results : Results.t;
    chartData : list ChartPoint.t;
    yearlyBreakdown : list YearRecord.t }.

(** The variables of the loops of lines 126-136. *)
Record InvestedVars : Type := mkInvested
  { iv_stepUpTotalInvested : Q;
    iv_currentMonthly : Q;
    iv_stepUpTotalInvestedPV : Q }.

(** [for (let i = lo; i < hi; i++) body] on the loop's variables [s]. *)
Definition for_loop_below {St : Type} (lo hi : Z) (body : Z -> St -> St) (s : St)
  : St :=
  for_iter (Z.to_nat (hi - lo)) lo body s.

Section Effect.
Variable Math_pow_frac : Q -> Q -> Q.

(** The body of the loop of lines 121-124. *)
Definition normalPVMonth (monthlyInvestment inflationRate : Q) (m : Z)
    (normalTotalInvestedPV : Q) : Q :=
  normalTotalInvestedPV
  + monthlyInvestment / Math_pow_frac (1 + inflationRate / 100) (inject_Z m / 12).

Definition investedMonth (inflationRate : Q) (year month : Z) (s : InvestedVars)
  : InvestedVars :=
  let monthIndex := ((year - 1) * 12 + (month - 1))%Z in
  {| iv_stepUpTotalInvested := iv_stepUpTotalInvested s + iv_currentMonthly s;
     iv_currentMonthly := iv_currentMonthly s;
     iv_stepUpTotalInvestedPV :=
       iv_stepUpTotalInvestedPV s
       + iv_currentMonthly s
         / Math_pow_frac (1 + inflationRate / 100) (inject_Z monthIndex / 12) |}.

Definition investedYear (stepUpPercent inflationRate : Q) (year : Z) (s : InvestedVars)
  : InvestedVars :=
  let s1 := for_loop 1 12 (investedMonth inflationRate year) s in
  {| iv_stepUpTotalInvested := iv_stepUpTotalInvested s1;
     iv_currentMonthly := iv_currentMonthly s1 * (1 + stepUpPercent / 100);
     iv_stepUpTotalInvestedPV := iv_stepUpTotalInvestedPV s1 |}.

Definition investedInit (monthlyInvestment : Q) : InvestedVars :=
  {| iv_stepUpTotalInvested := 0;
     iv_currentMonthly := monthlyInvestment;
     iv_stepUpTotalInvestedPV := 0 |}.

Definition effect (monthlyInvestment annualReturn : Q) (duration : Z)
    (stepUpPercent inflationRate : Q) : State :=
  let normalSIP := calculateNormalSIP monthlyInvestment annualReturn duration in
  let stepUpSIP :=
    calculateStepUpSIP monthlyInvestment annualReturn duration stepUpPercent in
  let normalTotalInvested := monthlyInvestment * inject_Z duration * 12 in
  let months := (duration * 12)%Z in
  let normalTotalInvestedPV :=
    for_loop_below 0 months (normalPVMonth monthlyInvestment inflationRate) 0 in
  let s :=
    for_loop 1 duration (investedYear stepUpPercent inflationRate)
      (investedInit monthlyInvestment) in
  let stepUpTotalInvested := iv_stepUpTotalInvested s in
  let stepUpTotalInvestedPV := iv_stepUpTotalInvestedPV s in
  let normalInflationAdjusted :=
    calculateInflationAdjusted normalSIP inflationRate duration in
  let stepUpInflationAdjusted :=
    calculateInflationAdjusted stepUpSIP inflationRate duration in
  {| results :=
       {| Results.normal :=
            {| Summary.futureValue := normalSIP;
               Summary.totalInvested := normalTotalInvested;
               Summary.totalInvestedInflationAdjusted :=
                 Math_round normalTotalInvestedPV;
               Summary.returns := normalSIP - normalTotalInvested;
               Summary.inflationAdjusted := normalInflationAdjusted;
               Summary.realReturns :=
                 Math_round (normalInflationAdjusted - normalTotalInvestedPV) |};
          Results.stepUp :=
            {| Summary.futureValue := stepUpSIP;
               Summary.totalInvested := stepUpTotalInvested;
               Summary.totalInvestedInflationAdjusted :=
                 Math_round stepUpTotalInvestedPV;
               Summary.returns := stepUpSIP - stepUpTotalInvested;
               Summary.inflationAdjusted := stepUpInflationAdjusted;
               Summary.realReturns :=
                 Math_round (stepUpInflationAdjusted - stepUpTotalInvestedPV) |} |};
     chartData :=
       generateChartData monthlyInvestment annualReturn duration stepUpPercent;
     yearlyBreakdown :=
       generateYearlyBreakdown monthlyInvestment annualReturn duration stepUpPercent |}.

(** The present value added by [j] contributions of [c], the first one at
    month index [start] (the loop body of line 123, iterated). *)
Definition presentValueFrom (c inflationRate : Q) (start : Z) (j : nat) (pv : Q) : Q :=
  for_iter j start (normalPVMonth c inflationRate) pv.

(** The variables of the loop of lines 129-136 after [n] iterations. *)
Definition investedAfter (monthlyInvestment stepUpPercent inflationRate : Q) (n : nat)
  : InvestedVars :=
  for_iter n 1 (investedYear stepUpPercent inflationRate)
    (investedInit monthlyInvestment).

End Effect.

(** *** The CSV export of the breakdown (lines 207-232)

    [downloadYearlyCSV] builds the text of the file and hands it to the
    browser; the embedding returns that text, or [None] where the function
    returns early, and leaves the download itself and the file name out.  A
    cell is a header string or a number; [join] turns a number into its
    decimal notation, which is what JavaScript gives for whole numbers below
    10^21 in absolute value. *)

Import String Ascii.

Inductive Cell : Type :=
| CellString (s : string)
| CellNumber (n : Z).

Definition Number_toString (n : Z) : string := DecimalString.NilZero.string_of_int (Z.to_int n).

Definition Cell_toString (c : Cell) : string :=
  match c with
  | CellString s => s
  | CellNumber n => Number_toString n
  end.

(** [e.join(separator)] on an array of cells. *)
Definition Array_join (separator : string) (e : list Cell) : string :=
  String.concat separator (map Cell_toString e).

Definition comma : string := String ","%char EmptyString.
Definition newline : string := String "010"%char EmptyString.

Definition downloadYearlyCSV (yearlyBreakdown : list YearRecord.t) : option string :=
  if (List.length yearlyBreakdown =? 0)%nat then None
  else
    let headers :=
      map CellString
        ["Year"; "Monthly SIP"; "Yearly Investment"; "Total Invested";
         "Year-End Value"; "Returns"]%string in
    let rows :=
      map (fun r =>
             map CellNumber
               [YearRecord.year r; YearRecord.monthlyInvestment r;
                YearRecord.yearlyInvestment r; YearRecord.totalInvested r;
                YearRecord.yearEndValue r; YearRecord.returns r])
          yearlyBreakdown in
    let csvContent :=
      String.concat newline (map (Array_join comma) (headers :: rows)) in
    Some csvContent.

(** Reading such a file back: the text between separators, the number a cell
    denotes, the record a line denotes. *)
Fixpoint split_on (c : ascii) (s : string) : list string :=
  match s with
  | EmptyString => [EmptyString]
  | String a s' =>
      if Ascii.eqb a c then EmptyString :: split_on c s'
      else match split_on c s' with
           | h :: t => String a h :: t
           | [] => [String a EmptyString]
           end
  end.

Definition readNumber (s : string) : option Z :=
  option_map Z.of_int (DecimalString.NilZero.int_of_string s).

Definition readRecord (line : string) : option YearRecord.t :=
  match map readNumber (split_on ","%char line) with
  | [Some y; Some mi; Some yi; Some ti; Some ev; Some re] =>
      Some (YearRecord.mk y mi yi ti ev re)
  | _ => None
  end.

Fixpoint readRecords (lines : list string) : option (list YearRecord.t) :=
  match lines with
  | [] => Some []
  | line :: rest =>
      match readRecord line, readRecords rest with
      | Some r, Some rs => Some (r :: rs)
      | _, _ => None
      end
  end.

Definition readCSV (content : string) : option (list YearRecord.t) :=
  match split_on "010"%char content with
  | _header :: rows => readRecords rows
  | [] => None
  end.

(** Whether every character of a string satisfies [p]. *)
Fixpoint string_forall (p : ascii -> bool) (s : string) : bool :=
  match s with
  | EmptyString => true
  | String a s' => p a && string_forall p s'
  end.

(** A number JavaScript prints in plain decimal notation; a record of such
    numbers. *)
Definition plainNumber (n : Z) : Prop := (Z.abs n < 10 ^ 21)%Z.

Definition plainRecord (r : YearRecord.t) : Prop :=
  plainNumber (YearRecord.year r) /\ plainNumber (YearRecord.monthlyInvestment r)
  /\ plainNumber (YearRecord.yearlyInvestment r)
  /\ plainNumber (YearRecord.totalInvested r)
  /\ plainNumber (YearRecord.yearEndValue r) /\ plainNumber (YearRecord.returns r).

(** The characters of a printed number. *)
Definition numberChar (a : ascii) : bool :=
  (Ascii.eqb a "-" || Ascii.eqb a "0" || Ascii.eqb a "1" || Ascii.eqb a "2"
   || Ascii.eqb a "3" || Ascii.eqb a "4" || Ascii.eqb a "5" || Ascii.eqb a "6"
   || Ascii.eqb a "7" || Ascii.eqb a "8" || Ascii.eqb a "9")%char.

(** The line of a record, and the header line. *)
Definition recordLine (r : YearRecord.t) : string :=
  Array_join comma
    (map CellNumber
       [YearRecord.year r; YearRecord.monthlyInvestment r;
        YearRecord.yearlyInvestment r; YearRecord.totalInvested r;
        YearRecord.yearEndValue r; YearRecord.returns r]).

Definition headerLine : string :=
  "Year,Monthly SIP,Yearly Investment,Total Invested,Year-End Value,Returns"%string.

End SIPCalculator.

(** A rational stand-in for [Math.pow] that drops the fractional part of the
    exponent; it instantiates the statements about the effect. *)
Definition pow_whole (b x : Q) : Q := b ^ Qfloor x.

Import SIPCalculator.

(** * Properties *)

(** ** Loops *)

Section ForLoopFacts.
Context {St : Type}.
Implicit Types (body : Z -> St -> St) (s : St).

(** The last iteration of a loop, peeled off. *)
Lemma for_iter_last n i body s :
  for_iter (S n) i body s = body (i + Z.of_nat n)%Z (for_iter n i body s).
Proof.
  revert i s. induction n as [|n IH]; intros i s.
  - cbn [for_iter]. now rewrite Z.add_0_r.
  - change (for_iter (S (S n)) i body s)
      with (for_iter (S n) (i + 1)%Z body (body i s)).
    rewrite IH. cbn [for_iter]. f_equal. lia.
Qed.

Lemma for_loop_from_1 hi body s :
  for_loop 1 hi body s = for_iter (Z.to_nat hi) 1 body s.
Proof. unfold for_loop. f_equal. lia. Qed.

(** A property kept by the body is kept by the loop. *)
Lemma for_iter_invariant (P : St -> Prop) n i body s :
  (forall k s', P s' -> P (body k s')) -> P s -> P (for_iter n i body s).
Proof.
  intros Hbody. revert i s. induction n as [|n IH]; intros i s Hs; cbn [for_iter].
  - exact Hs.
  - apply IH, Hbody, Hs.
Qed.
End ForLoopFacts.

Lemma yearsUpTo_S n : yearsUpTo (S n) = yearsUpTo n ++ [(1 + Z.of_nat n)%Z].
Proof.
  unfold yearsUpTo. rewrite seq_S, map_app. cbn [map]. do 2 f_equal. lia.
Qed.

Lemma yearsUpTo_In n k : In k (yearsUpTo n) <-> (1 <= k <= Z.of_nat n)%Z.
Proof.
  unfold yearsUpTo. rewrite in_map_iff. split.
  - intros [j [<- Hj]]. apply in_seq in Hj. lia.
  - intros Hk. exists (Z.to_nat k). split; [lia|]. apply in_seq. lia.
Qed.

Lemma yearsUpTo_length n : length (yearsUpTo n) = n.
Proof. unfold yearsUpTo. now rewrite length_map, length_seq. Qed.

Lemma StronglySorted_snoc {A} (R : A -> A -> Prop) l x :
  StronglySorted R l -> Forall (fun a => R a x) l -> StronglySorted R (l ++ [x]).
Proof.
  induction 1 as [|a l Hl IH Ha]; intros Hx; cbn [app].
  - repeat constructor.
  - inversion Hx; subst. constructor.
    + now apply IH.
    + apply Forall_app. split; [exact Ha|]. now repeat constructor.
Qed.

Lemma StronglySorted_filter {A} (R : A -> A -> Prop) f l :
  StronglySorted R l -> StronglySorted R (filter f l).
Proof.
  induction 1 as [|a l Hl IH Ha]; cbn [filter].
  - constructor.
  - destruct (f a); [|exact IH]. constructor; [exact IH|].
    rewrite Forall_forall in *. intros b Hb. apply Ha.
    now apply filter_In in Hb.
Qed.

Lemma yearsUpTo_sorted n : StronglySorted Z.lt (yearsUpTo n).
Proof.
  induction n as [|n IH].
  - constructor.
  - rewrite yearsUpTo_S. apply StronglySorted_snoc; [exact IH|].
    apply Forall_forall. intros a Ha. apply yearsUpTo_In in Ha. lia.
Qed.

Lemma filter_orb_length {A} (f g : A -> bool) l :
  (length (filter (fun a => f a || g a) l)
   <= length (filter f l) + length (filter g l))%nat.
Proof.
  induction l as [|a l IH]; cbn [filter]; [lia|].
  destruct (f a), (g a); cbn [orb length]; lia.
Qed.

(** How many of the years [1 .. n] are equal to [y]. *)
Lemma yearsUpTo_count_eq n y :
  length (filter (fun k => k =? y)%Z (yearsUpTo n))
  = if ((1 <=? y) && (y <=? Z.of_nat n))%Z then 1%nat else 0%nat.
Proof.
  induction n as [|n IH].
  - cbn. destruct (Z.leb_spec 1 y), (Z.leb_spec y 0); cbn; try reflexivity. lia.
  - rewrite yearsUpTo_S, filter_app, length_app, IH. cbn [filter].
    destruct (Z.eqb_spec (1 + Z.of_nat n) y); cbn [length];
      destruct (Z.leb_spec 1 y), (Z.leb_spec y (Z.of_nat n)),
               (Z.leb_spec y (Z.of_nat (S n))); cbn [andb]; lia.
Qed.

(** How many of the years [1 .. n] are multiples of the stride [d]. *)
Lemma yearsUpTo_count_multiples n d :
  (0 < d)%Z ->
  length (filter (fun k => k mod d =? 0)%Z (yearsUpTo n)) = Z.to_nat (Z.of_nat n / d).
Proof.
  intros Hd. induction n as [|n IH].
  - reflexivity.
  - rewrite yearsUpTo_S, filter_app, length_app, IH. cbn [filter].
    replace (Z.of_nat (S n)) with (1 + Z.of_nat n)%Z by lia.
    assert (Hn : (0 <= Z.of_nat n)%Z) by lia.
    generalize dependent (Z.of_nat n). intros z _ Hz.
    assert (H0 : (0 <= z / d)%Z) by (apply Z.div_pos; lia).
    pose proof (Z.div_mod z d ltac:(lia)) as Hz0.
    pose proof (Z.mod_pos_bound z d Hd) as Hr0.
    pose proof (Z.div_mod (1 + z) d ltac:(lia)) as Hz1.
    pose proof (Z.mod_pos_bound (1 + z) d Hd) as Hr1.
    assert (Hcmp : ((1 + z) / d - z / d < 0 \/ (1 + z) / d - z / d = 0 \/
                    (1 + z) / d - z / d = 1 \/ 1 < (1 + z) / d - z / d)%Z) by lia.
    destruct ((1 + z) mod d =? 0)%Z eqn:E; cbn [length].
    + apply Z.eqb_eq in E.
      assert ((1 + z) / d = z / d + 1)%Z by (destruct Hcmp as [?|[?|[?|?]]]; nia).
      lia.
    + apply Z.eqb_neq in E.
      assert ((1 + z) / d = z / d)%Z by (destruct Hcmp as [?|[?|[?|?]]]; nia).
      lia.
Qed.

(** ** The chart series: which years are sampled *)

Lemma Math_floor_div_Zdiv n d : Math_floor_div n d = (n / d)%Z.
Proof. unfold Math_floor_div. symmetry. apply Zdiv_Qdiv. Qed.

Lemma chartSampled_spec years year :
  (1 <= year)%Z ->
  chartSampled years year = true <->
  (year mod chartStride years = 0 \/ year = years)%Z.
Proof.
  intros Hy. unfold chartSampled, chartStride.
  rewrite Math_floor_div_Zdiv, orb_true_iff, !Z.eqb_eq.
  rewrite Z.rem_mod_nonneg by lia. reflexivity.
Qed.

Section Chart.
Variables (monthlyInvestment monthlyRate stepUpPercent : Q) (years : Z).

Lemma chartMonths_data n i s :
  ch_data (for_iter n i (chartMonth monthlyInvestment monthlyRate) s) = ch_data s.
Proof.
  apply (for_iter_invariant (fun s' => ch_data s' = ch_data s)); [|reflexivity].
  intros k s' Hs'. exact Hs'.
Qed.

(** One more year: the point pushed, if the year is sampled. *)
Lemma chartAfter_S_data n :
  ch_data (chartAfter monthlyInvestment monthlyRate stepUpPercent years (S n)) =
  let s := chartAfter monthlyInvestment monthlyRate stepUpPercent years n in
  let s1 := for_loop 1 12 (chartMonth monthlyInvestment monthlyRate) s in
  if chartSampled years (1 + Z.of_nat n) then
    ch_data s ++
    [ {| ChartPoint.year := 1 + Z.of_nat n;
         ChartPoint.Normal_SIP := Math_round (ch_normalValue s1);
         ChartPoint.Step_Up_SIP := Math_round (ch_stepUpValue s1) |} ]
  else ch_data s.
Proof.
  cbv zeta. unfold chartAfter. rewrite for_iter_last.
  set (s := for_iter n 1 _ _).
  unfold chartYear. cbv zeta. cbn [ch_data].
  unfold for_loop at 1 4. rewrite !chartMonths_data.
  reflexivity.
Qed.

(** The years of the points pushed so far: the sampled ones, in order. *)
Lemma chartAfter_years n :
  map ChartPoint.year
    (ch_data (chartAfter monthlyInvestment monthlyRate stepUpPercent years n))
  = filter (chartSampled years) (yearsUpTo n).
Proof.
  induction n as [|n IH]; [reflexivity|].
  rewrite chartAfter_S_data, yearsUpTo_S, filter_app. cbn [filter].
  cbv zeta. destruct (chartSampled years (1 + Z.of_nat n)).
  - rewrite map_app, IH. reflexivity.
  - now rewrite app_nil_r.
Qed.
End Chart.

Lemma generateChartData_after m r years step :
  generateChartData m r years step
  = ch_data (chartAfter m (r / 12 / 100) step years (Z.to_nat years)).
Proof. unfold generateChartData, chartAfter. now rewrite for_loop_from_1. Qed.

Lemma generateChartData_years m r years step :
  map ChartPoint.year (generateChartData m r years step)
  = filter (chartSampled years) (yearsUpTo (Z.to_nat years)).
Proof. rewrite generateChartData_after. apply chartAfter_years. Qed.

(** The number of sampled years, for any horizon. *)
Lemma chartSampled_count years :
  (length (filter (chartSampled years) (yearsUpTo (Z.to_nat years))) <= 19)%nat.
Proof.
  destruct (Z_lt_le_dec years 20) as [Hsmall|Hbig].
  - etransitivity; [apply filter_length_le|]. rewrite yearsUpTo_length. lia.
  - assert (Hd : (2 <= years / 10)%Z) by (apply Z.div_le_lower_bound; lia).
    rewrite (filter_ext_in _
               (fun k => (k mod chartStride years =? 0)%Z || (k =? years)%Z)).
    2:{ intros k Hk. apply yearsUpTo_In in Hk. unfold chartSampled, chartStride.
        rewrite Math_floor_div_Zdiv, Z.rem_mod_nonneg by lia. reflexivity. }
    etransitivity; [apply filter_orb_length|].
    rewrite yearsUpTo_count_eq.
    rewrite yearsUpTo_count_multiples by (unfold chartStride; lia).
    unfold chartStride. rewrite Z.max_r by lia. rewrite Z2Nat.id by lia.
    assert (years / (years / 10) <= 14)%Z.
    { apply Z.lt_succ_r, Z.div_lt_upper_bound; [lia|].
      pose proof (Z.div_mod years 10 ltac:(lia)).
      pose proof (Z.mod_pos_bound years 10 ltac:(lia)). lia. }
    assert (0 <= years / (years / 10))%Z by (apply Z.div_pos; lia).
    destruct ((1 <=? years) && (years <=? years))%Z; lia.
Qed.

(** ** Chart series: the claims *)

(** The last iteration of the loop over the years pushes a point. *)
Lemma generateChartData_last m r years step :
  (1 <= years)%Z ->
  exists pts p,
    generateChartData m r years step = pts ++ [p] /\ ChartPoint.year p = years.
Proof.
  intros Hy. rewrite generateChartData_after.
  destruct (Z.to_nat years) as [|n] eqn:En; [lia|].
  rewrite chartAfter_S_data. cbv zeta.
  replace (1 + Z.of_nat n)%Z with years by lia.
  assert (Hs : chartSampled years years = true).
  { unfold chartSampled. rewrite Z.eqb_refl. apply orb_true_r. }
  rewrite Hs. eexists _, _. split; reflexivity.
Qed.

(** C7.  For every input with [years >= 1] the series returned by
    [generateChartData] is non-empty and its last point has [year = years],
    whatever the sampling stride. *)
Theorem chart_endpoint m r years step :
  (1 <= years)%Z ->
  generateChartData m r years step <> []
  /\ exists pts p,
       generateChartData m r years step = pts ++ [p] /\ ChartPoint.year p = years.
Proof.
  intros Hy. destruct (generateChartData_last m r years step Hy) as (pts & p & E & Hp).
  split.
  - rewrite E. now destruct pts.
  - now exists pts, p.
Qed.

Lemma chart_endpoint_witness :
  generateChartData 5000 12 7 10 <> []
  /\ exists pts p,
       generateChartData 5000 12 7 10 = pts ++ [p] /\ ChartPoint.year p = 7%Z.
Proof. apply (chart_endpoint 5000 12 7 10). lia. Defined.

(** C10.  For every input with [years >= 1] the years of the points of the
    series are strictly increasing, each between 1 and [years], and the final
    year occurs exactly once. *)
Theorem chart_years_increasing m r years step :
  (1 <= years)%Z ->
  let ys := map ChartPoint.year (generateChartData m r years step) in
  StronglySorted Z.lt ys
  /\ Forall (fun y => 1 <= y <= years)%Z ys
  /\ count_occ Z.eq_dec ys years = 1%nat.
Proof.
  intros Hy ys. subst ys. rewrite generateChartData_years.
  assert (Hsorted : StronglySorted Z.lt
            (filter (chartSampled years) (yearsUpTo (Z.to_nat years))))
    by apply StronglySorted_filter, yearsUpTo_sorted.
  split; [exact Hsorted|]. split.
  - apply Forall_forall. intros y Hin. apply filter_In in Hin.
    destruct Hin as [Hin _]. apply yearsUpTo_In in Hin. lia.
  - destruct (Z.to_nat years) as [|n] eqn:En; [lia|].
    rewrite yearsUpTo_S, filter_app in *. cbn [filter] in *.
    replace (1 + Z.of_nat n)%Z with years in * by lia.
    assert (Hs : chartSampled years years = true).
    { unfold chartSampled. rewrite Z.eqb_refl. apply orb_true_r. }
    rewrite Hs in *. rewrite count_occ_app. cbn [count_occ].
    destruct (Z.eq_dec years years) as [_|Hne]; [|contradiction].
    assert (Hnot : ~ In years (filter (chartSampled years) (yearsUpTo n))).
    { intros Hin. apply filter_In in Hin. destruct Hin as [Hin _].
      apply yearsUpTo_In in Hin. lia. }
    apply (count_occ_not_In Z.eq_dec) in Hnot. rewrite Hnot. reflexivity.
Qed.

Lemma chart_years_increasing_witness :
  let ys := map ChartPoint.year (generateChartData 5000 12 20 10) in
  StronglySorted Z.lt ys
  /\ Forall (fun y => 1 <= y <= 20)%Z ys
  /\ count_occ Z.eq_dec ys 20%Z = 1%nat.
Proof. apply (chart_years_increasing 5000 12 20 10). lia. Defined.

(** C3, as stated, fails: a horizon of 19 years has stride 1, so every year
    is sampled and the series has 19 points, not about 11. *)
Lemma chart_length_19_years :
  length (generateChartData 5000 12 19 10) = 19%nat
  /\ ~ (forall m r years step,
          (1 <= years)%Z -> (length (generateChartData m r years step) <= 11)%nat).
Proof.
  assert (H19 : length (generateChartData 5000 12 19 10) = 19%nat).
  { rewrite <- (length_map ChartPoint.year), generateChartData_years.
    reflexivity. }
  split; [exact H19|]. intros Hall.
  specialize (Hall 5000 12 19%Z 10 ltac:(lia)). rewrite H19 in Hall. lia.
Qed.

(** C3, amended.  [generateChartData] emits a point exactly at the years
    [1 .. years] that are multiples of the stride [max 1 (years / 10)] or equal
    to [years]; the series has at most 19 points, whatever the horizon. *)
Theorem chart_sampling m r years step :
  (forall y, In y (map ChartPoint.year (generateChartData m r years step)) <->
             (1 <= y <= years)%Z /\
             (y mod Z.max 1 (years / 10) = 0 \/ y = years)%Z)
  /\ (length (generateChartData m r years step) <= 19)%nat.
Proof.
  split.
  - intros y. rewrite generateChartData_years, filter_In, yearsUpTo_In.
    split.
    + intros [Hr Hs]. assert (Hy : (1 <= y <= years)%Z) by lia.
      split; [exact Hy|]. apply chartSampled_spec in Hs; [exact Hs|lia].
    + intros [Hr Hs]. split; [lia|]. apply chartSampled_spec; [lia|exact Hs].
  - rewrite <- (length_map ChartPoint.year), generateChartData_years.
    apply chartSampled_count.
Qed.

(** ** Rounding *)

Lemma Math_round_bounds x :
  inject_Z (Math_round x) <= x + (1 # 2) /\ x + (1 # 2) < inject_Z (Math_round x) + 1.
Proof.
  unfold Math_round. split.
  - apply Qfloor_le.
  - pose proof (Qlt_floor (x + (1 # 2))) as H.
    rewrite inject_Z_plus in H. exact H.
Qed.

Lemma Math_round_comp x y : x == y -> Math_round x = Math_round y.
Proof. intros H. unfold Math_round. now rewrite H. Qed.

Lemma Math_round_Z k : Math_round (inject_Z k) = k.
Proof.
  pose proof (Math_round_bounds (inject_Z k)) as [H1 H2].
  assert (inject_Z (Math_round (inject_Z k)) < inject_Z (k + 1)).
  { rewrite inject_Z_plus. change (inject_Z 1) with 1. lra. }
  assert (inject_Z k < inject_Z (Math_round (inject_Z k) + 1)).
  { rewrite inject_Z_plus. change (inject_Z 1) with 1. lra. }
  rewrite <- Zlt_Qlt in *. lia.
Qed.

Lemma Math_round_0 x : x == 0 -> Math_round x = 0%Z.
Proof. intros H. rewrite (Math_round_comp _ _ H). apply (Math_round_Z 0). Qed.

Lemma Math_round_le x y : x <= y -> (Math_round x <= Math_round y)%Z.
Proof. intros H. unfold Math_round. apply Qfloor_resp_le. lra. Qed.

Lemma Math_round_lt x y : x + 1 <= y -> (Math_round x < Math_round y)%Z.
Proof.
  intros H.
  pose proof (Math_round_bounds x) as [Hx _].
  pose proof (Math_round_bounds y) as [_ Hy].
  assert (Hq : inject_Z (Math_round x) < inject_Z (Math_round y)) by lra.
  now rewrite <- Zlt_Qlt in Hq.
Qed.

(** Rounding a difference against the difference of the roundings. *)
Lemma Math_round_sub x y :
  (Math_round x - Math_round y - 1 <= Math_round (x - y)
   <= Math_round x - Math_round y + 1)%Z.
Proof.
  pose proof (Math_round_bounds x) as [Hx1 Hx2].
  pose proof (Math_round_bounds y) as [Hy1 Hy2].
  pose proof (Math_round_bounds (x - y)) as [Hd1 Hd2].
  assert (H1 : inject_Z (Math_round x - Math_round y - 2)
               < inject_Z (Math_round (x - y))).
  { unfold Z.sub. rewrite !inject_Z_plus, !inject_Z_opp.
    change (inject_Z 2) with 2. lra. }
  assert (H2 : inject_Z (Math_round (x - y))
               < inject_Z (Math_round x - Math_round y + 2)).
  { unfold Z.sub. rewrite !inject_Z_plus, !inject_Z_opp.
    change (inject_Z 2) with 2. lra. }
  rewrite <- Zlt_Qlt in H1, H2. lia.
Qed.

Lemma Math_round_sub_Z x k :
  Math_round (x - inject_Z k) = (Math_round x - k)%Z.
Proof.
  pose proof (Math_round_bounds x) as [Hx1 Hx2].
  pose proof (Math_round_bounds (x - inject_Z k)) as [Hd1 Hd2].
  assert (H1 : inject_Z (Math_round x - k - 1)
               < inject_Z (Math_round (x - inject_Z k))).
  { unfold Z.sub. rewrite !inject_Z_plus, !inject_Z_opp.
    change (inject_Z 1) with 1. lra. }
  assert (H2 : inject_Z (Math_round (x - inject_Z k))
               < inject_Z (Math_round x - k + 1)).
  { unfold Z.sub. rewrite !inject_Z_plus, !inject_Z_opp.
    change (inject_Z 1) with 1. lra. }
  rewrite <- Zlt_Qlt in H1, H2. lia.
Qed.

(** ** Monthly compounding *)

Lemma compound_S c rate n v :
  compound c rate (S n) v = (compound c rate n v + c) * (1 + rate).
Proof. reflexivity. Qed.

Lemma compound_add c rate n k v :
  compound c rate (n + k) v = compound c rate n (compound c rate k v).
Proof. unfold compound. apply Nat.iter_add. Qed.

Lemma compound_comp c c' rate n v v' :
  c == c' -> v == v' -> compound c rate n v == compound c' rate n v'.
Proof.
  intros Hc Hv. induction n as [|n IH]; [exact Hv|].
  rewrite !compound_S, IH, Hc. reflexivity.
Qed.

(** With nothing paid in, nothing grows. *)
Lemma compound_0 c rate n v : c == 0 -> v == 0 -> compound c rate n v == 0.
Proof.
  intros Hc Hv. induction n as [|n IH]; [exact Hv|].
  rewrite compound_S, IH, Hc. ring.
Qed.

(** At a non-negative rate the balance grows by at least what is paid in. *)
Lemma compound_lower c rate n v :
  0 <= c -> 0 <= rate -> 0 <= v ->
  v + inject_Z (Z.of_nat n) * c <= compound c rate n v.
Proof.
  intros Hc Hr Hv. induction n as [|n IH].
  - change (v + 0 * c <= v). lra.
  - rewrite compound_S, Nat2Z.inj_succ. unfold Z.succ. rewrite inject_Z_plus.
    assert (0 <= inject_Z (Z.of_nat n)) by (rewrite <- (Zle_Qle 0); lia).
    assert (0 <= inject_Z (Z.of_nat n) * c) by (apply Qmult_le_0_compat; lra).
    assert (0 <= (compound c rate n v + c) * rate)
      by (apply Qmult_le_0_compat; lra).
    change (inject_Z 1) with 1. lra.
Qed.

Lemma Qpower_succ a (n : nat) : a ^ Z.of_nat (S n) == a ^ Z.of_nat n * a.
Proof.
  rewrite Nat2Z.inj_succ. unfold Z.succ.
  rewrite Qpower_plus' by lia. reflexivity.
Qed.

(** The closed forms of the balance when saving starts from nothing. *)
Lemma compound_closed_zero_rate c rate n :
  rate == 0 -> compound c rate n 0 == c * inject_Z (Z.of_nat n).
Proof.
  intros Hr. induction n as [|n IH].
  - change (0 == c * 0). ring.
  - rewrite compound_S, IH, Nat2Z.inj_succ. unfold Z.succ.
    rewrite inject_Z_plus, Hr. change (inject_Z 1) with 1. ring.
Qed.

Lemma compound_closed c rate n :
  ~ rate == 0 ->
  compound c rate n 0 == c * ((1 + rate) ^ Z.of_nat n - 1) / rate * (1 + rate).
Proof.
  intros Hr. induction n as [|n IH].
  - change (0 == c * (1 - 1) / rate * (1 + rate)). field. exact Hr.
  - rewrite compound_S, IH, Qpower_succ. field. exact Hr.
Qed.

Lemma paidIn_closed c n t : paidIn c n t == t + inject_Z (Z.of_nat n) * c.
Proof.
  induction n as [|n IH].
  - change (t == t + 0 * c). ring.
  - change (paidIn c (S n) t) with (paidIn c n t + c).
    rewrite IH, Nat2Z.inj_succ. unfold Z.succ. rewrite inject_Z_plus.
    change (inject_Z 1) with 1. ring.
Qed.

Lemma monthlyRate_nonneg r : 0 <= r -> 0 <= r / 12 / 100.
Proof.
  intros H. do 2 (apply Qle_shift_div_l; [reflexivity|]). lra.
Qed.

(** ** The step-up simulation *)

(** One year of [calculateStepUpSIP]: twelve months at the contribution in
    effect, then the step-up. *)
Lemma stepUpYear_eq rate step year s :
  stepUpYear rate step year s =
  {| su_totalValue :=
       compound (su_currentMonthlyInvestment s) rate 12 (su_totalValue s);
     su_currentMonthlyInvestment :=
       su_currentMonthlyInvestment s * (1 + step / 100) |}.
Proof. reflexivity. Qed.

Lemma stepUpAfter_S m rate step n :
  stepUpAfter m rate step (S n)
  = stepUpYear rate step (1 + Z.of_nat n) (stepUpAfter m rate step n).
Proof. unfold stepUpAfter. apply for_iter_last. Qed.

Lemma calculateStepUpSIP_after m r years step :
  calculateStepUpSIP m r years step
  = su_totalValue (stepUpAfter m (r / 12 / 100) step (Z.to_nat years)).
Proof. unfold calculateStepUpSIP, stepUpAfter. now rewrite for_loop_from_1. Qed.

(** Without step-up the contribution stays what it was, and the balance is
    that of [12 * n] equal monthly payments. *)
Lemma stepUpAfter_no_stepUp m rate step n :
  step == 0 ->
  su_currentMonthlyInvestment (stepUpAfter m rate step n) == m
  /\ su_totalValue (stepUpAfter m rate step n) == compound m rate (12 * n) 0.
Proof.
  intros Hstep. induction n as [|n [IHc IHv]].
  - split; reflexivity.
  - rewrite stepUpAfter_S, stepUpYear_eq. cbn [su_currentMonthlyInvestment su_totalValue].
    split.
    + rewrite IHc, Hstep. field.
    + replace (12 * S n)%nat with (12 + 12 * n)%nat by lia.
      rewrite compound_add. apply compound_comp; assumption.
Qed.

(** ** The yearly breakdown: the loop, year by year *)

Lemma breakdownYear_eq rate step year s :
  breakdownYear rate step year s =
  let c := bd_currentMonthlyInvestment s in
  let value := compound c rate 12 (bd_totalValue s) in
  let invested := paidIn c 12 (bd_totalInvested s) in
  {| bd_breakdown :=
       bd_breakdown s ++
       [ {| YearRecord.year := year;
            YearRecord.monthlyInvestment := Math_round c;
            YearRecord.yearlyInvestment := Math_round (paidIn c 12 0);
            YearRecord.totalInvested := Math_round invested;
            YearRecord.yearEndValue := Math_round value;
            YearRecord.returns := Math_round (value - invested) |} ];
     bd_totalValue := value;
     bd_currentMonthlyInvestment := c * (1 + step / 100);
     bd_totalInvested := invested;
     bd_yearlyInvestment := paidIn c 12 0 |}.
Proof. reflexivity. Qed.

Lemma breakdownAfter_S m rate step n :
  breakdownAfter m rate step (S n)
  = breakdownYear rate step (1 + Z.of_nat n) (breakdownAfter m rate step n).
Proof. unfold breakdownAfter. apply for_iter_last. Qed.

Lemma breakdownAfter_S_breakdown m rate step n :
  bd_breakdown (breakdownAfter m rate step (S n))
  = bd_breakdown (breakdownAfter m rate step n) ++ [yearRecordAt m rate step n].
Proof.
  unfold yearRecordAt. rewrite breakdownAfter_S, breakdownYear_eq. reflexivity.
Qed.

(** The records pushed so far, one per year, in order. *)
Lemma breakdownAfter_breakdown m rate step n :
  bd_breakdown (breakdownAfter m rate step n)
  = map (yearRecordAt m rate step) (seq 0 n).
Proof.
  induction n as [|n IH]; [reflexivity|].
  rewrite breakdownAfter_S_breakdown, IH, seq_S, map_app. reflexivity.
Qed.

Lemma generateYearlyBreakdown_after m r years step :
  generateYearlyBreakdown m r years step
  = map (yearRecordAt m (r / 12 / 100) step) (seq 0 (Z.to_nat years)).
Proof.
  unfold generateYearlyBreakdown. rewrite for_loop_from_1.
  apply breakdownAfter_breakdown.
Qed.

Lemma generateYearlyBreakdown_nth m r years step i rec :
  nth_error (generateYearlyBreakdown m r years step) i = Some rec ->
  (i < Z.to_nat years)%nat /\ rec = yearRecordAt m (r / 12 / 100) step i.
Proof.
  rewrite generateYearlyBreakdown_after. intros H.
  assert (Hi : (i < Z.to_nat years)%nat).
  { assert (Hn : nth_error (map (yearRecordAt m (r / 12 / 100) step)
                              (seq 0 (Z.to_nat years))) i <> None) by congruence.
    apply nth_error_Some in Hn. now rewrite length_map, length_seq in Hn. }
  split; [exact Hi|].
  rewrite nth_error_map, nth_error_seq in H.
  destruct (Nat.ltb_spec i (Z.to_nat years)); [|lia].
  cbn in H. now inversion H.
Qed.

(** ** Powers and quotients *)

Lemma Qpower_base_le a b (n : nat) :
  0 <= a -> a <= b -> a ^ Z.of_nat n <= b ^ Z.of_nat n.
Proof.
  intros Ha Hab. induction n as [|n IH].
  - apply Qle_refl.
  - rewrite !Qpower_succ. apply Qmult_le_compat_nonneg; split; try assumption.
    apply Qpower_0_le, Ha.
Qed.

Lemma Qpower_base_lt a b (n : nat) :
  0 <= a -> a < b -> a ^ Z.of_nat (S n) < b ^ Z.of_nat (S n).
Proof.
  intros Ha Hab. induction n as [|n IH].
  - rewrite !Qpower_succ. change (1 * a < 1 * b). lra.
  - rewrite (Qpower_succ a (S n)), (Qpower_succ b (S n)).
    apply Qmult_lt_compat_nonneg; split; try assumption.
    apply Qpower_0_le, Ha.
Qed.

Lemma Qdiv_pos a b : 0 < a -> 0 < b -> 0 < a / b.
Proof. intros Ha Hb. apply Qlt_shift_div_l; [exact Hb|]. lra. Qed.

Lemma Qdiv_le_denominator a p q : 0 < a -> 0 < p -> p <= q -> a / q <= a / p.
Proof.
  intros Ha Hp Hpq.
  apply Qle_shift_div_r; [lra|].
  assert (E : a / p * p == a) by (field; lra).
  rewrite <- E at 1. apply Qmult_le_l; [now apply Qdiv_pos|exact Hpq].
Qed.

Lemma Qdiv_lt_denominator a p q : 0 < a -> 0 < p -> p < q -> a / q < a / p.
Proof.
  intros Ha Hp Hpq.
  apply Qlt_shift_div_r; [lra|].
  assert (E : a / p * p == a) by (field; lra).
  rewrite <- E at 1. apply Qmult_lt_l; [now apply Qdiv_pos|exact Hpq].
Qed.

Lemma inflation_factor_pos i y : 0 <= i -> 0 < (1 + i / 100) ^ y.
Proof.
  intros Hi. apply Qpower_0_lt.
  assert (0 <= i / 100) by (apply Qle_shift_div_l; [reflexivity|lra]). lra.
Qed.

(** ** Future values: the claims *)

Lemma strict_eq_false a b : ~ a == b -> strict_eq a b = false.
Proof.
  intros H. unfold strict_eq. destruct (Qeq_bool a b) eqn:E; [|reflexivity].
  apply Qeq_bool_iff in E. contradiction.
Qed.

Lemma calculateNormalSIP_compound m r years :
  (0 <= years)%Z ->
  calculateNormalSIP m r years
  == compound m (r / 12 / 100) (Z.to_nat (years * 12)) 0.
Proof.
  intros Hy. unfold calculateNormalSIP, Math_pow.
  destruct (strict_eq (r / 12 / 100) 0) eqn:E.
  - apply Qeq_bool_iff in E. rewrite compound_closed_zero_rate by exact E.
    rewrite Z2Nat.id by lia. reflexivity.
  - apply Qeq_bool_neq in E. rewrite compound_closed by exact E.
    rewrite Z2Nat.id by lia. reflexivity.
Qed.

(** C1.  With a step-up of 0 the simulated future value is the future value
    of the constant schedule, exactly, for every horizon of [years >= 0]
    whole years (in particular every positive one). *)
Theorem stepUp_zero_is_normal m r years :
  (0 <= years)%Z ->
  calculateStepUpSIP m r years 0 == calculateNormalSIP m r years.
Proof.
  intros Hy. rewrite calculateStepUpSIP_after, calculateNormalSIP_compound by exact Hy.
  destruct (stepUpAfter_no_stepUp m (r / 12 / 100) 0 (Z.to_nat years)
              ltac:(reflexivity)) as [_ Hv].
  rewrite Hv. replace (Z.to_nat (years * 12)) with (12 * Z.to_nat years)%nat by lia.
  reflexivity.
Qed.

Lemma stepUp_zero_is_normal_witness :
  calculateStepUpSIP 5000 12 10 0 == calculateNormalSIP 5000 12 10.
Proof. apply (stepUp_zero_is_normal 5000 12 10). lia. Defined.

(** C5.  At an annual return of exactly 0 [calculateNormalSIP] takes the
    linear branch: it returns the product [m * months], which is
    [m * years * 12]. *)
Theorem normal_zero_rate m r years :
  r == 0 ->
  calculateNormalSIP m r years = m * inject_Z (years * 12)
  /\ calculateNormalSIP m r years == m * inject_Z years * 12.
Proof.
  intros Hr. unfold calculateNormalSIP.
  assert (E : strict_eq (r / 12 / 100) 0 = true).
  { apply Qeq_bool_iff. rewrite Hr. reflexivity. }
  rewrite E. split; [reflexivity|].
  rewrite inject_Z_mult. change (inject_Z 12) with 12. ring.
Qed.

Lemma normal_zero_rate_witness :
  calculateNormalSIP 1000 0 5 = 1000 * inject_Z (5 * 12)
  /\ calculateNormalSIP 1000 0 5 == 1000 * inject_Z 5 * 12.
Proof. apply (normal_zero_rate 1000 0 5). reflexivity. Defined.

(** C6.  At a monthly rate other than 0 [calculateNormalSIP] returns the
    annuity-due value [m * ((1 + rate)^months - 1) / rate * (1 + rate)] with
    [months = years * 12]; for a horizon of whole years this is the balance of
    [months] payments, each made at the start of its month and compounded
    from then on. *)
Theorem normal_annuity_due m r years :
  ~ r / 12 / 100 == 0 ->
  calculateNormalSIP m r years
  = m * ((1 + r / 12 / 100) ^ (years * 12) - 1) / (r / 12 / 100) * (1 + r / 12 / 100)
  /\ ((0 <= years)%Z ->
      calculateNormalSIP m r years
      == compound m (r / 12 / 100) (Z.to_nat (years * 12)) 0).
Proof.
  intros Hr. split.
  - unfold calculateNormalSIP. now rewrite (strict_eq_false _ _ Hr).
  - apply calculateNormalSIP_compound.
Qed.

Lemma normal_annuity_due_witness :
  calculateNormalSIP 5000 12 10
  = 5000 * ((1 + 12 / 12 / 100) ^ (10 * 12) - 1) / (12 / 12 / 100) * (1 + 12 / 12 / 100)
  /\ ((0 <= 10)%Z ->
      calculateNormalSIP 5000 12 10
      == compound 5000 (12 / 12 / 100) (Z.to_nat (10 * 12)) 0).
Proof. apply (normal_annuity_due 5000 12 10). intros H. discriminate H. Defined.

(** C9.  [calculateInflationAdjusted fv i y] is [fv / (1 + i/100)^y]; it is
    [fv] when [i = 0]; and for [fv > 0] it decreases when the inflation rate
    grows (from a rate [i >= 0], strictly once [y >= 1]) and when the
    horizon grows (for [i > 0]). *)
Theorem inflation_adjusted fv i i' y y' :
  calculateInflationAdjusted fv i y = fv / (1 + i / 100) ^ y
  /\ (i == 0 -> calculateInflationAdjusted fv i y == fv)
  /\ (0 < fv -> 0 <= i -> i <= i' -> (0 <= y)%Z ->
      calculateInflationAdjusted fv i' y <= calculateInflationAdjusted fv i y)
  /\ (0 < fv -> 0 <= i -> i < i' -> (1 <= y)%Z ->
      calculateInflationAdjusted fv i' y < calculateInflationAdjusted fv i y)
  /\ (0 < fv -> 0 < i -> (y < y')%Z ->
      calculateInflationAdjusted fv i y' < calculateInflationAdjusted fv i y).
Proof.
  unfold calculateInflationAdjusted, Math_pow.
  split; [reflexivity|]. split; [|split; [|split]].
  - intros Hi. rewrite Hi.
    assert (E : 1 + 0 / 100 == 1) by reflexivity.
    rewrite E, Qpower_1. field.
  - intros Hfv Hi Hii Hy.
    assert (Hb : 0 <= 1 + i / 100).
    { apply Qlt_le_weak. rewrite <- (Qpower_1_r (1 + i / 100)).
      now apply inflation_factor_pos. }
    apply Qdiv_le_denominator; [exact Hfv|now apply inflation_factor_pos|].
    rewrite <- (Z2Nat.id y) by lia. apply Qpower_base_le; [exact Hb|].
    apply Qplus_le_r. apply Qle_shift_div_l; [reflexivity|].
    assert (E : i / 100 * 100 == i) by field. rewrite E. exact Hii.
  - intros Hfv Hi Hii Hy.
    assert (Hb : 0 <= 1 + i / 100).
    { apply Qlt_le_weak. rewrite <- (Qpower_1_r (1 + i / 100)).
      now apply inflation_factor_pos. }
    apply Qdiv_lt_denominator; [exact Hfv|now apply inflation_factor_pos|].
    replace y with (Z.of_nat (S (Z.to_nat (y - 1)))) by lia.
    apply Qpower_base_lt; [exact Hb|].
    apply Qplus_lt_r. apply Qlt_shift_div_l; [reflexivity|].
    assert (E : i / 100 * 100 == i) by field. rewrite E. exact Hii.
  - intros Hfv Hi Hyy.
    apply Qdiv_lt_denominator; [exact Hfv|apply inflation_factor_pos; lra|].
    apply Qpower_lt_compat_l; [exact Hyy|].
    assert (0 < i / 100) by (apply Qlt_shift_div_l; [reflexivity|lra]). lra.
Qed.

Lemma inflation_adjusted_witness :
  calculateInflationAdjusted 1000 0 10 == 1000
  /\ calculateInflationAdjusted 1000 6 10 <= calculateInflationAdjusted 1000 5 10
  /\ calculateInflationAdjusted 1000 6 10 < calculateInflationAdjusted 1000 5 10
  /\ calculateInflationAdjusted 1000 5 11 < calculateInflationAdjusted 1000 5 10.
Proof.
  split; [|split; [|split]].
  - apply (inflation_adjusted 1000 0 0 10 10). reflexivity.
  - apply (inflation_adjusted 1000 5 6 10 10); try reflexivity; discriminate.
  - apply (inflation_adjusted 1000 5 6 10 10); try reflexivity; discriminate.
  - apply (inflation_adjusted 1000 5 5 10 11); reflexivity.
Defined.

(** ** The yearly breakdown: balances and contributions *)

Section BreakdownGrowth.
Variables (m rate step : Q).
Hypotheses (Hm : 0 < m) (Hrate : 0 <= rate) (Hstep : 0 <= step).

Lemma breakdown_contribution_value n :
  m <= bd_currentMonthlyInvestment (breakdownAfter m rate step n)
  /\ 0 <= bd_totalValue (breakdownAfter m rate step n).
Proof.
  induction n as [|n [IHc IHv]].
  - split; [apply Qle_refl|apply Qle_refl].
  - rewrite breakdownAfter_S, breakdownYear_eq. cbv zeta.
    cbn [bd_currentMonthlyInvestment bd_totalValue].
    set (c := bd_currentMonthlyInvestment (breakdownAfter m rate step n)) in *.
    set (v := bd_totalValue (breakdownAfter m rate step n)) in *.
    split.
    + assert (Hs : 0 <= step / 100)
        by (apply Qle_shift_div_l; [reflexivity|lra]).
      assert (0 <= c * (step / 100)) by (apply Qmult_le_0_compat; lra).
      generalize dependent (step / 100). intros; lra.
    + pose proof (compound_lower c rate 12 v ltac:(lra) Hrate IHv) as H.
      assert (0 <= inject_Z (Z.of_nat 12) * c)
        by (apply Qmult_le_0_compat; [discriminate|lra]).
      lra.
Qed.

(** A year adds at least twelve times the initial contribution. *)
Lemma breakdown_value_step n :
  bd_totalValue (breakdownAfter m rate step n) + 12 * m
  <= bd_totalValue (breakdownAfter m rate step (S n)).
Proof.
  destruct (breakdown_contribution_value n) as [Hc Hv].
  rewrite breakdownAfter_S, breakdownYear_eq. cbv zeta. cbn [bd_totalValue].
  set (c := bd_currentMonthlyInvestment (breakdownAfter m rate step n)) in *.
  set (v := bd_totalValue (breakdownAfter m rate step n)) in *.
  pose proof (compound_lower c rate 12 v ltac:(lra) Hrate Hv) as H.
  change (inject_Z (Z.of_nat 12)) with 12 in H. lra.
Qed.

Lemma breakdown_value_mono i j :
  (i < j)%nat ->
  bd_totalValue (breakdownAfter m rate step i) + 12 * m
  <= bd_totalValue (breakdownAfter m rate step j).
Proof.
  induction 1 as [|j Hij IH].
  - apply breakdown_value_step.
  - pose proof (breakdown_value_step j). lra.
Qed.
End BreakdownGrowth.

(** With nothing paid in, every variable of the breakdown stays at 0. *)
Lemma breakdownAfter_zero m rate step n :
  m == 0 ->
  bd_currentMonthlyInvestment (breakdownAfter m rate step n) == 0
  /\ bd_totalValue (breakdownAfter m rate step n) == 0
  /\ bd_totalInvested (breakdownAfter m rate step n) == 0.
Proof.
  intros Hm. induction n as [|n (IHc & IHv & IHt)].
  - split; [exact Hm|split; reflexivity].
  - rewrite breakdownAfter_S, breakdownYear_eq. cbv zeta.
    cbn [bd_currentMonthlyInvestment bd_totalValue bd_totalInvested].
    split; [|split].
    + rewrite IHc. field.
    + now apply compound_0.
    + rewrite paidIn_closed, IHc, IHt. ring.
Qed.

Lemma yearRecordAt_zero m rate step n :
  m == 0 -> zeroRecord (yearRecordAt m rate step n).
Proof.
  intros Hm.
  destruct (breakdownAfter_zero m rate step n Hm) as (Hc & _ & _).
  destruct (breakdownAfter_zero m rate step (S n) Hm) as (_ & Hv & Ht).
  unfold zeroRecord, yearRecordAt. cbv zeta.
  cbn [YearRecord.monthlyInvestment YearRecord.yearlyInvestment
       YearRecord.totalInvested YearRecord.yearEndValue YearRecord.returns].
  repeat apply conj; apply Math_round_0; try assumption.
  - rewrite breakdownAfter_S, breakdownYear_eq. cbv zeta. cbn [bd_yearlyInvestment].
    rewrite paidIn_closed, Hc. ring.
  - rewrite Hv, Ht. ring.
Qed.

(** ** The chart series with nothing paid in *)

Lemma chartYear_eq m rate step years year s :
  chartYear m rate step years year s =
  let normalValue := compound m rate 12 (ch_normalValue s) in
  let stepUpValue := compound (ch_stepUpMonthly s) rate 12 (ch_stepUpValue s) in
  {| ch_data :=
       if chartSampled years year then
         ch_data s ++
         [ {| ChartPoint.year := year;
              ChartPoint.Normal_SIP := Math_round normalValue;
              ChartPoint.Step_Up_SIP := Math_round stepUpValue |} ]
       else ch_data s;
     ch_normalValue := normalValue;
     ch_stepUpValue := stepUpValue;
     ch_stepUpMonthly := ch_stepUpMonthly s * (1 + step / 100) |}.
Proof. reflexivity. Qed.

Lemma chartAfter_zero m rate step years n :
  m == 0 ->
  let s := chartAfter m rate step years n in
  ch_normalValue s == 0 /\ ch_stepUpValue s == 0 /\ ch_stepUpMonthly s == 0
  /\ Forall zeroPoint (ch_data s).
Proof.
  intros Hm. cbv zeta. unfold chartAfter.
  apply (for_iter_invariant
           (fun s => ch_normalValue s == 0 /\ ch_stepUpValue s == 0
                     /\ ch_stepUpMonthly s == 0 /\ Forall zeroPoint (ch_data s))).
  - intros year s (Hn & Hs & Hc & Hd). rewrite chartYear_eq. cbv zeta.
    cbn [ch_normalValue ch_stepUpValue ch_stepUpMonthly ch_data].
    assert (Hn' : compound m rate 12 (ch_normalValue s) == 0)
      by now apply compound_0.
    assert (Hs' : compound (ch_stepUpMonthly s) rate 12 (ch_stepUpValue s) == 0)
      by now apply compound_0.
    repeat apply conj; try assumption.
    + rewrite Hc. field.
    + destruct (chartSampled years year); [|exact Hd].
      apply Forall_app. split; [exact Hd|]. constructor; [|constructor].
      split; apply Math_round_0; assumption.
  - repeat apply conj; try reflexivity; try exact Hm. constructor.
Qed.

Lemma stepUpAfter_zero m rate step n :
  m == 0 ->
  su_currentMonthlyInvestment (stepUpAfter m rate step n) == 0
  /\ su_totalValue (stepUpAfter m rate step n) == 0.
Proof.
  intros Hm. induction n as [|n [IHc IHv]].
  - split; [exact Hm|reflexivity].
  - rewrite stepUpAfter_S, stepUpYear_eq.
    cbn [su_currentMonthlyInvestment su_totalValue]. split.
    + rewrite IHc. field.
    + now apply compound_0.
Qed.

(** ** The yearly breakdown: the claims *)

(** C4, as stated, fails.  With 0.04 a month at 1200 % a year (the balance
    doubles every month) the first record has [yearEndValue = 328],
    [totalInvested = 0] and [returns = 327]: the three fields are rounded
    separately, from 327.6, 0.48 and 327.12. *)
Lemma returns_not_difference_of_fields :
  generateYearlyBreakdown (4 # 100) 1200 1 0
  = [ {| YearRecord.year := 1;
         YearRecord.monthlyInvestment := 0;
         YearRecord.yearlyInvestment := 0;
         YearRecord.totalInvested := 0;
         YearRecord.yearEndValue := 328;
         YearRecord.returns := 327 |} ]
  /\ ~ (forall m r years step rec,
          0 < m -> (1 <= years)%Z ->
          In rec (generateYearlyBreakdown m r years step) ->
          YearRecord.returns rec
          = (YearRecord.yearEndValue rec - YearRecord.totalInvested rec)%Z).
Proof.
  assert (E : generateYearlyBreakdown (4 # 100) 1200 1 0
              = [ YearRecord.mk 1 0 0 0 328 327 ]) by (vm_compute; reflexivity).
  split; [exact E|]. intros Hall.
  specialize (Hall (4 # 100) 1200 1%Z 0 (YearRecord.mk 1 0 0 0 328 327)
                ltac:(reflexivity) ltac:(lia)).
  rewrite E in Hall. specialize (Hall (or_introl eq_refl)). discriminate Hall.
Qed.

(** The same happens at the inputs the calculator starts with (5000 a month,
    12 % a year, 10 years, 10 % step-up), in the record of year 7. *)
Example returns_not_difference_of_fields_defaults :
  exists rec,
    nth_error (generateYearlyBreakdown 5000 12 10 10) 6 = Some rec
    /\ YearRecord.yearEndValue rec = 854764%Z
    /\ YearRecord.totalInvested rec = 569230%Z
    /\ YearRecord.returns rec = 285533%Z.
Proof. eexists. vm_compute. repeat split. Qed.

(** C4, amended.  In every record of [generateYearlyBreakdown] the fields
    [yearEndValue], [totalInvested] and [returns] are the roundings of the
    full-precision balance, of the full-precision total paid in, and of their
    full-precision difference; [returns] is therefore within 1 of
    [yearEndValue - totalInvested], and equal to it when the total paid in is
    a whole number. *)
Theorem breakdown_returns m r years step i rec :
  nth_error (generateYearlyBreakdown m r years step) i = Some rec ->
  let s := breakdownAfter m (r / 12 / 100) step (S i) in
  YearRecord.yearEndValue rec = Math_round (bd_totalValue s)
  /\ YearRecord.totalInvested rec = Math_round (bd_totalInvested s)
  /\ YearRecord.returns rec = Math_round (bd_totalValue s - bd_totalInvested s)
  /\ (YearRecord.yearEndValue rec - YearRecord.totalInvested rec - 1
      <= YearRecord.returns rec
      <= YearRecord.yearEndValue rec - YearRecord.totalInvested rec + 1)%Z
  /\ (forall k, bd_totalInvested s == inject_Z k ->
      YearRecord.returns rec
      = (YearRecord.yearEndValue rec - YearRecord.totalInvested rec)%Z).
Proof.
  intros Hnth s. apply generateYearlyBreakdown_nth in Hnth.
  destruct Hnth as [_ ->]. unfold yearRecordAt. cbv zeta. fold s.
  cbn [YearRecord.yearEndValue YearRecord.totalInvested YearRecord.returns].
  repeat apply conj; try reflexivity.
  - apply Math_round_sub.
  - apply Math_round_sub.
  - intros k Hk.
    rewrite (Math_round_comp (bd_totalValue s - bd_totalInvested s)
               (bd_totalValue s - inject_Z k)) by (rewrite Hk; reflexivity).
    rewrite (Math_round_comp _ _ Hk), Math_round_Z. apply Math_round_sub_Z.
Qed.

Lemma breakdown_returns_witness :
  let rec := YearRecord.mk 2 1000 12000 24000 27243 3243 in
  let s := breakdownAfter 1000 (12 / 12 / 100) 0 2 in
  YearRecord.yearEndValue rec = Math_round (bd_totalValue s)
  /\ YearRecord.totalInvested rec = Math_round (bd_totalInvested s)
  /\ YearRecord.returns rec = Math_round (bd_totalValue s - bd_totalInvested s)
  /\ (YearRecord.yearEndValue rec - YearRecord.totalInvested rec - 1
      <= YearRecord.returns rec
      <= YearRecord.yearEndValue rec - YearRecord.totalInvested rec + 1)%Z
  /\ (forall k, bd_totalInvested s == inject_Z k ->
      YearRecord.returns rec
      = (YearRecord.yearEndValue rec - YearRecord.totalInvested rec)%Z).
Proof.
  apply (breakdown_returns 1000 12 2 0 1). vm_compute. reflexivity.
Defined.

(** C8, as stated, fails.  At 0.01 a month and no return the balances after
    years 1 and 2 are 0.12 and 0.24; both are reported as 0. *)
Lemma yearEndValue_not_strictly_increasing :
  map YearRecord.yearEndValue (generateYearlyBreakdown (1 # 100) 0 2 0) = [0%Z; 0%Z]
  /\ ~ (forall m r years step i j ri rj,
          0 < m -> 0 <= r -> (1 <= years)%Z -> 0 <= step -> (i < j)%nat ->
          nth_error (generateYearlyBreakdown m r years step) i = Some ri ->
          nth_error (generateYearlyBreakdown m r years step) j = Some rj ->
          (YearRecord.yearEndValue ri < YearRecord.yearEndValue rj)%Z).
Proof.
  split; [vm_compute; reflexivity|]. intros Hall.
  specialize (Hall (1 # 100) 0 2%Z 0 0%nat 1%nat
                (YearRecord.mk 1 0 0 0 0 0) (YearRecord.mk 2 0 0 0 0 0)
                ltac:(reflexivity) ltac:(discriminate) ltac:(lia)
                ltac:(discriminate) ltac:(lia)
                ltac:(vm_compute; reflexivity) ltac:(vm_compute; reflexivity)).
  cbn in Hall. lia.
Qed.

(** C8, amended.  For [m > 0], [r >= 0] and [stepUpPercent >= 0] the
    full-precision year-end balances are strictly increasing from one record
    to the next; the reported [yearEndValue] fields are non-decreasing, and
    strictly increasing when a year's contributions are at least one currency
    unit ([12 * m >= 1]). *)
Theorem breakdown_yearEndValue_growth m r years step i j ri rj :
  0 < m -> 0 <= r -> 0 <= step -> (i < j)%nat ->
  nth_error (generateYearlyBreakdown m r years step) i = Some ri ->
  nth_error (generateYearlyBreakdown m r years step) j = Some rj ->
  bd_totalValue (breakdownAfter m (r / 12 / 100) step (S i))
  < bd_totalValue (breakdownAfter m (r / 12 / 100) step (S j))
  /\ (YearRecord.yearEndValue ri <= YearRecord.yearEndValue rj)%Z
  /\ (1 <= 12 * m ->
      (YearRecord.yearEndValue ri < YearRecord.yearEndValue rj)%Z).
Proof.
  intros Hm Hr Hstep Hij Hi Hj.
  apply generateYearlyBreakdown_nth in Hi, Hj.
  destruct Hi as [_ ->], Hj as [_ ->].
  pose proof (breakdown_value_mono m (r / 12 / 100) step Hm
                (monthlyRate_nonneg r Hr) Hstep (S i) (S j) ltac:(lia)) as Hgrow.
  unfold yearRecordAt. cbv zeta. cbn [YearRecord.yearEndValue].
  split; [lra|]. split.
  - apply Math_round_le. lra.
  - intros Hunit. apply Math_round_lt. lra.
Qed.

Lemma breakdown_yearEndValue_growth_witness :
  let ri := YearRecord.mk 1 5000 60000 60000 64047 4047 in
  let rj := YearRecord.mk 3 6050 72600 198600 238205 39605 in
  bd_totalValue (breakdownAfter 5000 (12 / 12 / 100) 10 1)
  < bd_totalValue (breakdownAfter 5000 (12 / 12 / 100) 10 3)
  /\ (YearRecord.yearEndValue ri <= YearRecord.yearEndValue rj)%Z
  /\ (1 <= 12 * 5000 ->
      (YearRecord.yearEndValue ri < YearRecord.yearEndValue rj)%Z).
Proof.
  apply (breakdown_yearEndValue_growth 5000 12 3 10 0 2).
  - reflexivity.
  - discriminate.
  - discriminate.
  - lia.
  - vm_compute. reflexivity.
  - vm_compute. reflexivity.
Defined.

(** ** Degenerate inputs *)

(** C2, as stated, fails for a monthly investment of 0: the loops over the
    years still run, so the breakdown has a record for the year and the chart
    a point. *)
Lemma zero_investment_not_empty :
  generateYearlyBreakdown 0 12 1 10 = [ YearRecord.mk 1 0 0 0 0 0 ]
  /\ generateChartData 0 12 1 10 = [ ChartPoint.mk 1 0 0 ]
  /\ ~ (forall m r years step,
          years = 0%Z \/ m == 0 ->
          generateYearlyBreakdown m r years step = []
          /\ generateChartData m r years step = []).
Proof.
  assert (E : generateYearlyBreakdown 0 12 1 10 = [ YearRecord.mk 1 0 0 0 0 0 ])
    by (vm_compute; reflexivity).
  split; [exact E|]. split; [vm_compute; reflexivity|].
  intros Hall. destruct (Hall 0 12 1%Z 10 (or_intror (Qeq_refl 0))) as [Hbd _].
  rewrite E in Hbd. discriminate Hbd.
Qed.

Lemma generateYearlyBreakdown_length m r years step :
  length (generateYearlyBreakdown m r years step) = Z.to_nat years.
Proof. now rewrite generateYearlyBreakdown_after, length_map, length_seq. Qed.

(** C2, amended.  If [years = 0] or [monthlyInvestment = 0], both future
    values are 0.  If [years = 0] the breakdown and the chart series are
    empty.  If [monthlyInvestment = 0] the breakdown still has one record per
    year and the chart its sampled points (at least one when [years >= 1]),
    with every amount 0. *)
Theorem degenerate_inputs m r years step :
  years = 0%Z \/ m == 0 ->
  calculateNormalSIP m r years == 0
  /\ calculateStepUpSIP m r years step == 0
  /\ (years = 0%Z ->
      generateYearlyBreakdown m r years step = []
      /\ generateChartData m r years step = [])
  /\ (m == 0 ->
      length (generateYearlyBreakdown m r years step) = Z.to_nat years
      /\ Forall zeroRecord (generateYearlyBreakdown m r years step)
      /\ ((1 <= years)%Z -> generateChartData m r years step <> [])
      /\ Forall zeroPoint (generateChartData m r years step)).
Proof.
  intros Hdeg. repeat apply conj.
  - unfold calculateNormalSIP, Math_pow. destruct Hdeg as [-> | Hm].
    + destruct (strict_eq (r / 12 / 100) 0) eqn:E.
      * change (inject_Z (0 * 12)) with 0. ring.
      * apply Qeq_bool_neq in E.
        change ((1 + r / 12 / 100) ^ (0 * 12)) with 1. field.
        intros Hr. apply E. rewrite Hr. reflexivity.
    + destruct (strict_eq (r / 12 / 100) 0) eqn:E.
      * rewrite Hm. ring.
      * apply Qeq_bool_neq in E. rewrite Hm. field.
        intros Hr. apply E. rewrite Hr. reflexivity.
  - destruct Hdeg as [-> | Hm]; [reflexivity|].
    rewrite calculateStepUpSIP_after. now apply stepUpAfter_zero.
  - intros ->. split; reflexivity.
  - intros Hm. repeat apply conj.
    + apply generateYearlyBreakdown_length.
    + rewrite generateYearlyBreakdown_after.
      apply Forall_forall. intros rec Hin. apply in_map_iff in Hin.
      destruct Hin as [n [<- _]]. now apply yearRecordAt_zero.
    + intros Hy Hnil.
      destruct (generateChartData_last m r years step Hy) as (pts & p & Hpts & _).
      rewrite Hnil in Hpts. now destruct pts.
    + rewrite generateChartData_after.
      now apply (chartAfter_zero m (r / 12 / 100) step years (Z.to_nat years)).
Qed.

Lemma degenerate_inputs_witness :
  calculateNormalSIP 5000 12 0 == 0
  /\ calculateStepUpSIP 5000 12 0 10 == 0
  /\ generateYearlyBreakdown 5000 12 0 10 = []
  /\ generateChartData 5000 12 0 10 = []
  /\ calculateNormalSIP 0 12 10 == 0
  /\ Forall zeroRecord (generateYearlyBreakdown 0 12 10 10).
Proof.
  destruct (degenerate_inputs 5000 12 0 10 (or_introl eq_refl))
    as (Hn & Hs & Hempty & _).
  destruct (Hempty eq_refl) as [Hbd Hch].
  destruct (degenerate_inputs 0 12 10 10 (or_intror (Qeq_refl 0)))
    as (Hn0 & _ & _ & Hzero).
  destruct (Hzero (Qeq_refl 0)) as (_ & Hrec & _).
  repeat apply conj; assumption.
Defined.

(** * Further properties of the engine *)

(** ** The three simulations run the same recurrence *)

(** The loop of [generateYearlyBreakdown] carries the balance and the
    contribution of the loop of [calculateStepUpSIP]. *)
Lemma breakdownAfter_stepUpAfter m rate step n :
  bd_totalValue (breakdownAfter m rate step n)
  = su_totalValue (stepUpAfter m rate step n)
  /\ bd_currentMonthlyInvestment (breakdownAfter m rate step n)
     = su_currentMonthlyInvestment (stepUpAfter m rate step n).
Proof.
  induction n as [|n [IHv IHc]]; [split; reflexivity|].
  rewrite breakdownAfter_S, breakdownYear_eq, stepUpAfter_S, stepUpYear_eq.
  cbv zeta.
  cbn [bd_totalValue bd_currentMonthlyInvestment su_totalValue
       su_currentMonthlyInvestment].
  rewrite IHv, IHc. split; reflexivity.
Qed.

(** So does the step-up half of the loop of [generateChartData]; its other
    half pays in the initial contribution every month. *)
Lemma chartAfter_values m rate step years n :
  ch_normalValue (chartAfter m rate step years n) = compound m rate (12 * n) 0
  /\ ch_stepUpValue (chartAfter m rate step years n)
     = su_totalValue (stepUpAfter m rate step n)
  /\ ch_stepUpMonthly (chartAfter m rate step years n)
     = su_currentMonthlyInvestment (stepUpAfter m rate step n).
Proof.
  induction n as [|n (IHn & IHv & IHc)]; [repeat apply conj; reflexivity|].
  unfold chartAfter. rewrite for_iter_last. fold (chartAfter m rate step years n).
  rewrite chartYear_eq, stepUpAfter_S, stepUpYear_eq. cbv zeta.
  cbn [ch_normalValue ch_stepUpValue ch_stepUpMonthly su_totalValue
       su_currentMonthlyInvestment].
  rewrite IHn, IHv, IHc. repeat apply conj; try reflexivity.
  replace (12 * S n)%nat with (12 + 12 * n)%nat by lia.
  now rewrite compound_add.
Qed.

(** The points pushed so far, with their values. *)
Lemma chartAfter_data m rate step years n :
  ch_data (chartAfter m rate step years n)
  = map (chartPointAt m rate step) (filter (chartSampled years) (yearsUpTo n)).
Proof.
  induction n as [|n IH]; [reflexivity|].
  destruct (chartAfter_values m rate step years (S n)) as (Hn & Hv & _).
  revert Hn Hv.
  unfold chartAfter. rewrite for_iter_last. fold (chartAfter m rate step years n).
  rewrite chartYear_eq. cbv zeta. cbn [ch_data ch_normalValue ch_stepUpValue].
  intros Hn Hv. rewrite yearsUpTo_S, filter_app, map_app, <- IH. cbn [filter].
  destruct (chartSampled years (1 + Z.of_nat n)); [|now rewrite app_nil_r].
  cbn [map]. unfold chartPointAt.
  replace (Z.to_nat (1 + Z.of_nat n)) with (S n) by lia.
  now rewrite Hn, Hv.
Qed.


Lemma calculateStepUpSIP_of_nat m r step n :
  calculateStepUpSIP m r (Z.of_nat n) step
  = su_totalValue (stepUpAfter m (r / 12 / 100) step n).
Proof. now rewrite calculateStepUpSIP_after, Nat2Z.id. Qed.

(** ** The yearly breakdown, column by column *)

(** X1.  The breakdown has one record per year, for the years
    [1 .. years] in ascending order (none when [years <= 0]). *)
Theorem breakdown_years m r years step :
  map YearRecord.year (generateYearlyBreakdown m r years step)
  = yearsUpTo (Z.to_nat years).
Proof.
  rewrite generateYearlyBreakdown_after, map_map. unfold yearsUpTo.
  rewrite <- seq_shift, map_map. apply map_ext. intros n.
  unfold yearRecordAt. cbv zeta. cbn [YearRecord.year]. lia.
Qed.



(** X3.  The record of year [y] reports, as its year-end value, the rounded
    future value [calculateStepUpSIP] gives for a horizon of [y] years. *)
Theorem breakdown_yearEndValue_is_stepUp m r years step i rec :
  nth_error (generateYearlyBreakdown m r years step) i = Some rec ->
  YearRecord.yearEndValue rec
  = Math_round (calculateStepUpSIP m r (YearRecord.year rec) step).
Proof.
  intros Hnth. apply generateYearlyBreakdown_nth in Hnth. destruct Hnth as [_ ->].
  unfold yearRecordAt. cbv zeta. cbn [YearRecord.yearEndValue YearRecord.year].
  replace (1 + Z.of_nat i)%Z with (Z.of_nat (S i)) by lia.
  rewrite calculateStepUpSIP_of_nat.
  now destruct (breakdownAfter_stepUpAfter m (r / 12 / 100) step (S i)) as [-> _].
Qed.

Lemma breakdown_yearEndValue_is_stepUp_witness :
  YearRecord.yearEndValue (YearRecord.mk 3 6050 72600 198600 238205 39605)
  = Math_round (calculateStepUpSIP 5000 12
                  (YearRecord.year (YearRecord.mk 3 6050 72600 198600 238205 39605)) 10).
Proof.
  apply (breakdown_yearEndValue_is_stepUp 5000 12 3 10 2). vm_compute. reflexivity.
Defined.

(** Without step-up the contribution stays what it was and the total paid
    in is twelve contributions a year. *)
Lemma breakdownAfter_no_stepUp m rate step n :
  step == 0 ->
  bd_currentMonthlyInvestment (breakdownAfter m rate step n) == m
  /\ bd_totalInvested (breakdownAfter m rate step n)
     == inject_Z (12 * Z.of_nat n) * m.
Proof.
  intros Hstep. induction n as [|n [IHc IHt]].
  - split; [reflexivity|]. change (0 == 0 * m). ring.
  - rewrite breakdownAfter_S, breakdownYear_eq. cbv zeta.
    cbn [bd_currentMonthlyInvestment bd_totalInvested]. split.
    + rewrite IHc, Hstep. field.
    + rewrite paidIn_closed, IHc, IHt. change (inject_Z (Z.of_nat 12)) with 12.
      rewrite Nat2Z.inj_succ. unfold Z.succ.
      rewrite !inject_Z_mult, !inject_Z_plus.
      change (inject_Z 12) with 12. change (inject_Z 1) with 1. ring.
Qed.

(** X4.  For a whole monthly amount [k] and no step-up the contribution
    columns are exact: every record shows [k] a month and [12 * k] a year,
    the record of year [y] shows [12 * k * y] invested in total, and its
    returns are its year-end value minus that total. *)
Theorem breakdown_whole_amounts m r years step k i rec :
  m == inject_Z k -> step == 0 ->
  nth_error (generateYearlyBreakdown m r years step) i = Some rec ->
  YearRecord.monthlyInvestment rec = k
  /\ YearRecord.yearlyInvestment rec = (12 * k)%Z
  /\ YearRecord.totalInvested rec = (12 * k * YearRecord.year rec)%Z
  /\ YearRecord.returns rec
     = (YearRecord.yearEndValue rec - YearRecord.totalInvested rec)%Z.
Proof.
  intros Hm Hstep Hnth.
  apply generateYearlyBreakdown_nth in Hnth. destruct Hnth as [_ ->].
  destruct (breakdownAfter_no_stepUp m (r / 12 / 100) step i Hstep) as [Hc _].
  destruct (breakdownAfter_no_stepUp m (r / 12 / 100) step (S i) Hstep) as [_ Ht].
  assert (Ht' : bd_totalInvested (breakdownAfter m (r / 12 / 100) step (S i))
                == inject_Z (12 * k * (1 + Z.of_nat i))).
  { rewrite Ht, Hm, Nat2Z.inj_succ. unfold Z.succ.
    rewrite !inject_Z_mult, !inject_Z_plus. ring. }
  unfold yearRecordAt. cbv zeta.
  cbn [YearRecord.monthlyInvestment YearRecord.yearlyInvestment
       YearRecord.totalInvested YearRecord.returns YearRecord.yearEndValue
       YearRecord.year].
  repeat apply conj.
  - rewrite <- (Math_round_Z k). apply Math_round_comp. now rewrite Hc.
  - rewrite <- (Math_round_Z (12 * k)). apply Math_round_comp.
    rewrite breakdownAfter_S, breakdownYear_eq. cbv zeta. cbn [bd_yearlyInvestment].
    rewrite paidIn_closed, Hc, Hm, inject_Z_mult.
    change (inject_Z (Z.of_nat 12)) with 12. change (inject_Z 12) with 12. ring.
  - rewrite <- (Math_round_Z (12 * k * (1 + Z.of_nat i))).
    now apply Math_round_comp.
  - rewrite (Math_round_comp _ _ Ht'), Math_round_Z.
    rewrite <- Math_round_sub_Z. apply Math_round_comp. now rewrite Ht'.
Qed.

Lemma breakdown_whole_amounts_witness :
  let rec := YearRecord.mk 2 1000 12000 24000 27243 3243 in
  YearRecord.monthlyInvestment rec = 1000%Z
  /\ YearRecord.yearlyInvestment rec = (12 * 1000)%Z
  /\ YearRecord.totalInvested rec = (12 * 1000 * YearRecord.year rec)%Z
  /\ YearRecord.returns rec
     = (YearRecord.yearEndValue rec - YearRecord.totalInvested rec)%Z.
Proof.
  apply (breakdown_whole_amounts 1000 12 2 0 1000 1).
  - reflexivity.
  - reflexivity.
  - vm_compute. reflexivity.
Defined.

(** ** What is paid in, and what it has become *)

Lemma stepUp_factor_nonneg step : - (100) <= step -> 0 <= 1 + step / 100.
Proof.
  intros H. assert (- (1) <= step / 100).
  { apply Qle_shift_div_l; [reflexivity|]. lra. }
  lra.
Qed.

Section BreakdownInvested.
Variables (m rate step : Q).
Hypotheses (Hm : 0 <= m) (Hstep : - (100) <= step).

Lemma breakdown_contribution_nonneg n :
  0 <= bd_currentMonthlyInvestment (breakdownAfter m rate step n).
Proof.
  induction n as [|n IH]; [exact Hm|].
  rewrite breakdownAfter_S, breakdownYear_eq. cbv zeta.
  cbn [bd_currentMonthlyInvestment].
  apply Qmult_le_0_compat; [exact IH|now apply stepUp_factor_nonneg].
Qed.

Lemma breakdown_invested_step n :
  bd_totalInvested (breakdownAfter m rate step n)
  <= bd_totalInvested (breakdownAfter m rate step (S n)).
Proof.
  pose proof (breakdown_contribution_nonneg n) as Hc.
  rewrite breakdownAfter_S, breakdownYear_eq. cbv zeta. cbn [bd_totalInvested].
  rewrite paidIn_closed. change (inject_Z (Z.of_nat 12)) with 12. lra.
Qed.

Lemma breakdown_invested_mono i j :
  (i <= j)%nat ->
  bd_totalInvested (breakdownAfter m rate step i)
  <= bd_totalInvested (breakdownAfter m rate step j).
Proof.
  induction 1 as [|j Hij IH]; [apply Qle_refl|].
  pose proof (breakdown_invested_step j). lra.
Qed.

(** At a non-negative rate the balance covers what was paid in. *)
Lemma breakdown_value_covers_invested n :
  0 <= rate ->
  0 <= bd_totalInvested (breakdownAfter m rate step n)
  /\ bd_totalInvested (breakdownAfter m rate step n)
     <= bd_totalValue (breakdownAfter m rate step n).
Proof.
  intros Hrate. induction n as [|n [IH0 IH]].
  - split; apply Qle_refl.
  - pose proof (breakdown_contribution_nonneg n) as Hc.
    pose proof (breakdown_invested_step n) as Hstep'. split; [lra|].
    rewrite breakdownAfter_S, breakdownYear_eq. cbv zeta.
    cbn [bd_totalInvested bd_totalValue].
    assert (Hv : 0 <= bd_totalValue (breakdownAfter m rate step n)) by lra.
    pose proof (compound_lower _ rate 12 _ Hc Hrate Hv) as Hlow.
    rewrite paidIn_closed. lra.
Qed.
End BreakdownInvested.

(** X5.  For [m >= 0] and [stepUpPercent >= -100] the total invested never
    decreases from one record to a later one. *)
Theorem breakdown_totalInvested_monotone m r years step i j ri rj :
  0 <= m -> - (100) <= step -> (i <= j)%nat ->
  nth_error (generateYearlyBreakdown m r years step) i = Some ri ->
  nth_error (generateYearlyBreakdown m r years step) j = Some rj ->
  (YearRecord.totalInvested ri <= YearRecord.totalInvested rj)%Z.
Proof.
  intros Hm Hstep Hij Hi Hj.
  apply generateYearlyBreakdown_nth in Hi, Hj.
  destruct Hi as [_ ->], Hj as [_ ->].
  unfold yearRecordAt. cbv zeta. cbn [YearRecord.totalInvested].
  apply Math_round_le, breakdown_invested_mono; [assumption|assumption|lia].
Qed.

Lemma breakdown_totalInvested_monotone_witness :
  (YearRecord.totalInvested (YearRecord.mk 1 5000 60000 60000 64047 4047)
   <= YearRecord.totalInvested (YearRecord.mk 3 6050 72600 198600 238205 39605))%Z.
Proof.
  apply (breakdown_totalInvested_monotone 5000 12 3 10 0 2).
  - discriminate.
  - discriminate.
  - lia.
  - vm_compute. reflexivity.
  - vm_compute. reflexivity.
Defined.

(** X6.  For [m >= 0], [r >= 0] and [stepUpPercent >= -100] no record
    reports a loss: its returns are non-negative and its year-end value is at
    least its total invested. *)
Theorem breakdown_no_loss m r years step i rec :
  0 <= m -> 0 <= r -> - (100) <= step ->
  nth_error (generateYearlyBreakdown m r years step) i = Some rec ->
  (0 <= YearRecord.returns rec)%Z
  /\ (YearRecord.totalInvested rec <= YearRecord.yearEndValue rec)%Z.
Proof.
  intros Hm Hr Hstep Hnth.
  apply generateYearlyBreakdown_nth in Hnth. destruct Hnth as [_ ->].
  destruct (breakdown_value_covers_invested m (r / 12 / 100) step Hm Hstep (S i)
              (monthlyRate_nonneg r Hr)) as [_ Hcover].
  unfold yearRecordAt. cbv zeta.
  cbn [YearRecord.returns YearRecord.totalInvested YearRecord.yearEndValue].
  split.
  - rewrite <- (Math_round_Z 0). apply Math_round_le.
    change (inject_Z 0) with 0. lra.
  - now apply Math_round_le.
Qed.

Lemma breakdown_no_loss_witness :
  (0 <= YearRecord.returns (YearRecord.mk 3 6050 72600 198600 238205 39605))%Z
  /\ (YearRecord.totalInvested (YearRecord.mk 3 6050 72600 198600 238205 39605)
      <= YearRecord.yearEndValue (YearRecord.mk 3 6050 72600 198600 238205 39605))%Z.
Proof.
  apply (breakdown_no_loss 5000 12 3 10 2).
  - discriminate.
  - discriminate.
  - discriminate.
  - vm_compute. reflexivity.
Defined.

(** ** Future values *)

Lemma compound_le c c' rate n v v' :
  0 <= 1 + rate -> c <= c' -> v <= v' ->
  compound c rate n v <= compound c' rate n v'.
Proof.
  intros Hrate Hc Hv. induction n as [|n IH]; [exact Hv|].
  rewrite !compound_S. apply Qmult_le_compat_r; [lra|exact Hrate].
Qed.

Lemma compound_scale k c rate n v :
  compound (k * c) rate n (k * v) == k * compound c rate n v.
Proof.
  induction n as [|n IH]; [reflexivity|].
  rewrite !compound_S, IH. ring.
Qed.

Lemma monthlyRate_factor_nonneg r : - (1200) <= r -> 0 <= 1 + r / 12 / 100.
Proof.
  intros H. assert (- (1) <= r / 12 / 100).
  { do 2 (apply Qle_shift_div_l; [reflexivity|]). lra. }
  lra.
Qed.

(** With a non-negative step-up the contribution never falls below the
    first one, and the balance never below that of the constant schedule. *)
Lemma stepUpAfter_dominates m rate step n :
  0 <= m -> 0 <= 1 + rate -> 0 <= step ->
  m <= su_currentMonthlyInvestment (stepUpAfter m rate step n)
  /\ compound m rate (12 * n) 0 <= su_totalValue (stepUpAfter m rate step n).
Proof.
  intros Hm Hrate Hstep. induction n as [|n [IHc IHv]].
  - split; apply Qle_refl.
  - rewrite stepUpAfter_S, stepUpYear_eq.
    cbn [su_currentMonthlyInvestment su_totalValue]. split.
    + assert (Hs : 0 <= step / 100)
        by (apply Qle_shift_div_l; [reflexivity|lra]).
      set (c := su_currentMonthlyInvestment (stepUpAfter m rate step n)) in *.
      assert (0 <= c * (step / 100)) by (apply Qmult_le_0_compat; lra).
      generalize dependent (step / 100). intros; lra.
    + replace (12 * S n)%nat with (12 + 12 * n)%nat by lia.
      rewrite compound_add. now apply compound_le.
Qed.

(** X7.  For [m >= 0], [r >= -1200], [stepUpPercent >= 0] and a horizon of
    [years >= 0] whole years, stepping up never yields less than the constant
    schedule. *)
Theorem stepUp_at_least_normal m r years step :
  0 <= m -> - (1200) <= r -> 0 <= step -> (0 <= years)%Z ->
  calculateNormalSIP m r years <= calculateStepUpSIP m r years step.
Proof.
  intros Hm Hr Hstep Hy.
  rewrite calculateNormalSIP_compound, calculateStepUpSIP_after by exact Hy.
  replace (Z.to_nat (years * 12)) with (12 * Z.to_nat years)%nat by lia.
  now apply stepUpAfter_dominates; [|apply monthlyRate_factor_nonneg|].
Qed.

Lemma stepUp_at_least_normal_witness :
  calculateNormalSIP 5000 12 10 <= calculateStepUpSIP 5000 12 10 10.
Proof.
  apply (stepUp_at_least_normal 5000 12 10 10); try discriminate.
Defined.

(** X8.  Both future values are proportional to the monthly investment:
    [k] times the investment gives [k] times the value. *)
Theorem futureValue_scales k m r years step :
  calculateNormalSIP (k * m) r years == k * calculateNormalSIP m r years
  /\ calculateStepUpSIP (k * m) r years step == k * calculateStepUpSIP m r years step.
Proof.
  split.
  - unfold calculateNormalSIP. destruct (strict_eq (r / 12 / 100) 0) eqn:E.
    + ring.
    + apply Qeq_bool_neq in E. field. intros Hr. apply E. rewrite Hr. reflexivity.
  - rewrite !calculateStepUpSIP_after. generalize (Z.to_nat years). intros n.
    assert (H : su_currentMonthlyInvestment (stepUpAfter (k * m) (r / 12 / 100) step n)
                == k * su_currentMonthlyInvestment (stepUpAfter m (r / 12 / 100) step n)
                /\ su_totalValue (stepUpAfter (k * m) (r / 12 / 100) step n)
                   == k * su_totalValue (stepUpAfter m (r / 12 / 100) step n)).
    { induction n as [|n [IHc IHv]].
      - split; [reflexivity|]. change (0 == k * 0). ring.
      - rewrite !stepUpAfter_S, !stepUpYear_eq.
        cbn [su_currentMonthlyInvestment su_totalValue]. split.
        + rewrite IHc. ring.
        + rewrite <- compound_scale. now apply compound_comp. }
    apply H.
Qed.

(** X9.  For [m >= 0], [r >= 0] and [years >= 0] the constant schedule
    returns at least what was paid in, [m * years * 12]. *)
Theorem normal_at_least_invested m r years :
  0 <= m -> 0 <= r -> (0 <= years)%Z ->
  m * inject_Z years * 12 <= calculateNormalSIP m r years.
Proof.
  intros Hm Hr Hy. rewrite calculateNormalSIP_compound by exact Hy.
  pose proof (compound_lower m (r / 12 / 100) (Z.to_nat (years * 12)) 0 Hm
                (monthlyRate_nonneg r Hr) ltac:(apply Qle_refl)) as H.
  rewrite Z2Nat.id, inject_Z_mult in H by lia.
  change (inject_Z 12) with 12 in H. lra.
Qed.

Lemma normal_at_least_invested_witness :
  5000 * inject_Z 10 * 12 <= calculateNormalSIP 5000 12 10.
Proof. apply (normal_at_least_invested 5000 12 10); discriminate. Defined.

(** ** The chart series: the values of its points *)

Lemma generateChartData_points m r years step :
  generateChartData m r years step
  = map (chartPointAt m (r / 12 / 100) step)
      (filter (chartSampled years) (yearsUpTo (Z.to_nat years))).
Proof. rewrite generateChartData_after. apply chartAfter_data. Qed.

Lemma generateChartData_In m r years step p :
  In p (generateChartData m r years step) ->
  (1 <= ChartPoint.year p <= years)%Z
  /\ p = chartPointAt m (r / 12 / 100) step (ChartPoint.year p).
Proof.
  rewrite generateChartData_points, in_map_iff. intros [y [<- Hy]].
  apply filter_In in Hy. destruct Hy as [Hy _]. apply yearsUpTo_In in Hy.
  cbn [chartPointAt ChartPoint.year]. split; [lia|reflexivity].
Qed.



(** X11.  The step-up line of the chart passes through the year-end values
    of the breakdown: a point and a record of the same year show the same
    value. *)
Theorem chart_agrees_with_breakdown m r years step p rec :
  In p (generateChartData m r years step) ->
  In rec (generateYearlyBreakdown m r years step) ->
  ChartPoint.year p = YearRecord.year rec ->
  ChartPoint.Step_Up_SIP p = YearRecord.yearEndValue rec.
Proof.
  intros Hp Hrec Hyear.
  apply generateChartData_In in Hp. destruct Hp as [Hy Hp].
  rewrite generateYearlyBreakdown_after, in_map_iff in Hrec.
  destruct Hrec as [i [<- _]]. rewrite Hp, Hyear.
  unfold yearRecordAt. cbv zeta.
  cbn [chartPointAt ChartPoint.Step_Up_SIP YearRecord.yearEndValue YearRecord.year].
  replace (Z.to_nat (1 + Z.of_nat i)) with (S i) by lia.
  now destruct (breakdownAfter_stepUpAfter m (r / 12 / 100) step (S i)) as [-> _].
Qed.

Lemma chart_agrees_with_breakdown_witness :
  ChartPoint.Step_Up_SIP (ChartPoint.mk 2 136216 142621)
  = YearRecord.yearEndValue (YearRecord.mk 2 5500 66000 126000 142621 16621).
Proof.
  apply (chart_agrees_with_breakdown 5000 12 2 10).
  - vm_compute. right. left. reflexivity.
  - vm_compute. right. left. reflexivity.
  - reflexivity.
Defined.

(** X12.  For [m >= 0], [r >= -1200] and [stepUpPercent >= 0] the step-up
    line of the chart is never below the normal line. *)
Theorem chart_stepUp_above_normal m r years step p :
  0 <= m -> - (1200) <= r -> 0 <= step ->
  In p (generateChartData m r years step) ->
  (ChartPoint.Normal_SIP p <= ChartPoint.Step_Up_SIP p)%Z.
Proof.
  intros Hm Hr Hstep Hin. apply generateChartData_In in Hin.
  destruct Hin as [_ ->].
  cbn [chartPointAt ChartPoint.Normal_SIP ChartPoint.Step_Up_SIP].
  apply Math_round_le.
  now apply stepUpAfter_dominates; [|apply monthlyRate_factor_nonneg|].
Qed.

Lemma chart_stepUp_above_normal_witness :
  (ChartPoint.Normal_SIP (ChartPoint.mk 2 136216 142621)
   <= ChartPoint.Step_Up_SIP (ChartPoint.mk 2 136216 142621))%Z.
Proof.
  apply (chart_stepUp_above_normal 5000 12 2 10); try discriminate.
  vm_compute. right. left. reflexivity.
Defined.

(** X13.  Up to a horizon of 19 years the stride is 1: the chart has a
    point for every year. *)
Theorem chart_every_year_up_to_19 m r years step :
  (years <= 19)%Z ->
  map ChartPoint.year (generateChartData m r years step)
  = yearsUpTo (Z.to_nat years).
Proof.
  intros Hy. rewrite generateChartData_years.
  rewrite (filter_ext_in _ (fun _ => true)); [apply filter_true|].
  intros y _. unfold chartSampled. rewrite Math_floor_div_Zdiv.
  assert (Hs : (years / 10 <= 1)%Z).
  { apply Z.lt_succ_r, Z.div_lt_upper_bound; lia. }
  rewrite Z.max_l by lia. now rewrite Z.rem_1_r.
Qed.

Lemma chart_every_year_up_to_19_witness :
  map ChartPoint.year (generateChartData 5000 12 3 10) = yearsUpTo (Z.to_nat 3).
Proof. apply (chart_every_year_up_to_19 5000 12 3 10). lia. Defined.

(** ** Discounting for inflation *)

Lemma inflation_base_nonzero i : ~ i == - (100) -> ~ 1 + i / 100 == 0.
Proof.
  intros Hi H. apply Hi.
  assert (E : i == (1 + i / 100) * 100 - 100) by field.
  rewrite E, H. reflexivity.
Qed.

(** X14.  Discounting composes: for an inflation rate other than -100,
    discounting over [y1] years and then over [y2] years is discounting over
    [y1 + y2] years; in particular discounting over [-y] years undoes
    discounting over [y] years. *)
Theorem inflation_adjusted_compose fv i y1 y2 :
  ~ i == - (100) ->
  calculateInflationAdjusted (calculateInflationAdjusted fv i y1) i y2
  == calculateInflationAdjusted fv i (y1 + y2)
  /\ calculateInflationAdjusted (calculateInflationAdjusted fv i y1) i (- y1) == fv.
Proof.
  intros Hi. apply inflation_base_nonzero in Hi.
  unfold calculateInflationAdjusted, Math_pow.
  pose proof (Qpower_not_0 (1 + i / 100) y1 Hi) as H1.
  pose proof (Qpower_not_0 (1 + i / 100) y2 Hi) as H2.
  split.
  - rewrite Qpower_plus by exact Hi. field. split; assumption.
  - rewrite Qpower_opp. field. exact H1.
Qed.

Lemma inflation_adjusted_compose_witness :
  calculateInflationAdjusted (calculateInflationAdjusted 1000 6 3) 6 4
  == calculateInflationAdjusted 1000 6 (3 + 4)
  /\ calculateInflationAdjusted (calculateInflationAdjusted 1000 6 3) 6 (- 3) == 1000.
Proof. apply (inflation_adjusted_compose 1000 6 3 4). discriminate. Defined.

(** X15.  For [fv >= 0], an inflation rate [i >= 0] and [years >= 0] the
    inflation-adjusted value lies between 0 and [fv]. *)
Theorem inflation_adjusted_bounds fv i years :
  0 <= fv -> 0 <= i -> (0 <= years)%Z ->
  0 <= calculateInflationAdjusted fv i years <= fv.
Proof.
  intros Hfv Hi Hy. unfold calculateInflationAdjusted, Math_pow.
  pose proof (inflation_factor_pos i years Hi) as Hpos.
  assert (H1 : 1 <= (1 + i / 100) ^ years).
  { apply Qpower_1_le; [|exact Hy].
    assert (0 <= i / 100) by (apply Qle_shift_div_l; [reflexivity|lra]). lra. }
  split.
  - apply Qle_shift_div_l; [exact Hpos|lra].
  - apply Qle_shift_div_r; [exact Hpos|].
    assert (0 <= fv * ((1 + i / 100) ^ years - 1))
      by (apply Qmult_le_0_compat; lra).
    generalize dependent ((1 + i / 100) ^ years). intros; lra.
Qed.

Lemma inflation_adjusted_bounds_witness :
  0 <= calculateInflationAdjusted 1000 6 10 <= 1000.
Proof. apply (inflation_adjusted_bounds 1000 6 10); discriminate. Defined.

(** * The effect of the component *)


Section EffectFacts.
Variable pow : Q -> Q -> Q.

Lemma presentValueFrom_S c infl start j pv :
  presentValueFrom pow c infl start (S j) pv
  = presentValueFrom pow c infl start j pv
    + c / pow (1 + infl / 100) (inject_Z (start + Z.of_nat j) / 12).
Proof. unfold presentValueFrom. now rewrite for_iter_last. Qed.



(** The months of one year, in the loop of lines 130-134. *)
Lemma investedMonths infl year j s :
  let s' := for_iter j 1 (investedMonth pow infl year) s in
  iv_currentMonthly s' = iv_currentMonthly s
  /\ iv_stepUpTotalInvested s' = paidIn (iv_currentMonthly s) j (iv_stepUpTotalInvested s)
  /\ iv_stepUpTotalInvestedPV s'
     = presentValueFrom pow (iv_currentMonthly s) infl ((year - 1) * 12) j
         (iv_stepUpTotalInvestedPV s).
Proof.
  cbv zeta. induction j as [|j (IHc & IHt & IHp)]; [repeat apply conj; reflexivity|].
  rewrite for_iter_last, presentValueFrom_S. unfold investedMonth at 1 3 5.
  cbv zeta. cbn [iv_currentMonthly iv_stepUpTotalInvested iv_stepUpTotalInvestedPV].
  rewrite IHc, IHt, IHp. repeat apply conj; try reflexivity.
  replace ((year - 1) * 12 + (1 + Z.of_nat j - 1))%Z
    with ((year - 1) * 12 + Z.of_nat j)%Z by lia.
  reflexivity.
Qed.

Lemma investedAfter_S m step infl n :
  let s := investedAfter pow m step infl n in
  investedAfter pow m step infl (S n) =
  {| iv_stepUpTotalInvested := paidIn (iv_currentMonthly s) 12 (iv_stepUpTotalInvested s);
     iv_currentMonthly := iv_currentMonthly s * (1 + step / 100);
     iv_stepUpTotalInvestedPV :=
       presentValueFrom pow (iv_currentMonthly s) infl (Z.of_nat (12 * n)) 12
         (iv_stepUpTotalInvestedPV s) |}.
Proof.
  cbv zeta. unfold investedAfter. rewrite for_iter_last.
  set (s := for_iter n 1 _ _). unfold investedYear, for_loop. cbv zeta.
  change (Z.to_nat (12 - 1 + 1)) with 12%nat.
  destruct (investedMonths infl (1 + Z.of_nat n) 12 s) as (Hc & Ht & Hp).
  rewrite Hc, Ht, Hp. do 2 f_equal. lia.
Qed.

(** The loop of lines 129-136 adds up the contributions exactly as the loop
    of [generateYearlyBreakdown] does. *)
Lemma investedAfter_breakdownAfter m rate step infl n :
  iv_stepUpTotalInvested (investedAfter pow m step infl n)
  = bd_totalInvested (breakdownAfter m rate step n)
  /\ iv_currentMonthly (investedAfter pow m step infl n)
     = bd_currentMonthlyInvestment (breakdownAfter m rate step n).
Proof.
  induction n as [|n [IHt IHc]]; [split; reflexivity|].
  rewrite investedAfter_S, breakdownAfter_S, breakdownYear_eq. cbv zeta.
  cbn [iv_stepUpTotalInvested iv_currentMonthly bd_totalInvested
       bd_currentMonthlyInvestment].
  rewrite IHt, IHc. split; reflexivity.
Qed.


(** At an inflation rate of 0 nothing is discounted. *)
Lemma presentValueFrom_no_inflation c infl start j pv :
  (forall b x, b == 1 -> pow b x == 1) -> infl == 0 ->
  presentValueFrom pow c infl start j pv == pv + inject_Z (Z.of_nat j) * c.
Proof.
  intros Hpow Hinfl. induction j as [|j IH].
  - change (pv == pv + 0 * c). ring.
  - rewrite presentValueFrom_S, IH, Hpow, Nat2Z.inj_succ.
    + unfold Z.succ. rewrite inject_Z_plus. change (inject_Z 1) with 1. field.
    + rewrite Hinfl. reflexivity.
Qed.

Lemma investedAfter_no_inflation m step infl n :
  (forall b x, b == 1 -> pow b x == 1) -> infl == 0 ->
  iv_stepUpTotalInvestedPV (investedAfter pow m step infl n)
  == iv_stepUpTotalInvested (investedAfter pow m step infl n).
Proof.
  intros Hpow Hinfl. induction n as [|n IH]; [reflexivity|].
  rewrite investedAfter_S. cbv zeta.
  cbn [iv_stepUpTotalInvested iv_stepUpTotalInvestedPV].
  rewrite presentValueFrom_no_inflation, paidIn_closed, IH by assumption.
  reflexivity.
Qed.

End EffectFacts.



Lemma calculateInflationAdjusted_no_inflation fv infl years :
  infl == 0 -> calculateInflationAdjusted fv infl years == fv.
Proof.
  intros H. unfold calculateInflationAdjusted, Math_pow.
  assert (E : 1 + infl / 100 == 1) by (rewrite H; reflexivity).
  rewrite E, Qpower_1. field.
Qed.

Lemma pow_whole_one b x : b == 1 -> pow_whole b x == 1.
Proof. intros H. unfold pow_whole. rewrite H. apply Qpower_1. Qed.

(** The step-up half of the results, read off the loops. *)
Lemma effect_stepUp_totals pow m r duration step infl :
  let s := investedAfter pow m step infl (Z.to_nat duration) in
  let res := Results.stepUp (results (effect pow m r duration step infl)) in
  Summary.totalInvested res = iv_stepUpTotalInvested s
  /\ Summary.totalInvestedInflationAdjusted res = Math_round (iv_stepUpTotalInvestedPV s)
  /\ Summary.realReturns res
     = Math_round (Summary.inflationAdjusted res - iv_stepUpTotalInvestedPV s).
Proof.
  cbv zeta. unfold effect, investedAfter. cbv zeta.
  cbn [results Results.stepUp Summary.totalInvested
       Summary.totalInvestedInflationAdjusted Summary.realReturns
       Summary.inflationAdjusted].
  rewrite for_loop_from_1. repeat apply conj; reflexivity.
Qed.

Lemma effect_normal_presentValue pow m r duration step infl :
  let res := Results.normal (results (effect pow m r duration step infl)) in
  let pv := presentValueFrom pow m infl 0 (Z.to_nat (duration * 12)) 0 in
  Summary.totalInvestedInflationAdjusted res = Math_round pv
  /\ Summary.realReturns res = Math_round (Summary.inflationAdjusted res - pv).
Proof.
  cbv zeta. unfold effect, presentValueFrom, for_loop_below. cbv zeta.
  cbn [results Results.normal Summary.totalInvestedInflationAdjusted
       Summary.realReturns Summary.inflationAdjusted].
  rewrite Z.sub_0_r. split; reflexivity.
Qed.



(** X17.  At an inflation rate of 0, provided [Math.pow] returns 1 at base
    1, the inflation-adjusted figures of both halves are the nominal ones:
    the adjusted future value is the future value, and the adjusted total
    invested and the real returns are the roundings of the total invested
    and of the returns. *)
Theorem effect_no_inflation pow m r duration step infl :
  (forall b x, b == 1 -> pow b x == 1) -> infl == 0 -> (0 <= duration)%Z ->
  forall res,
    res = Results.normal (results (effect pow m r duration step infl))
    \/ res = Results.stepUp (results (effect pow m r duration step infl)) ->
    Summary.inflationAdjusted res == Summary.futureValue res
    /\ Summary.totalInvestedInflationAdjusted res
       = Math_round (Summary.totalInvested res)
    /\ Summary.realReturns res = Math_round (Summary.returns res).
Proof.
  intros Hpow Hinfl Hd res [-> | ->].
  - destruct (effect_normal_presentValue pow m r duration step infl) as (Hpv & Hreal).
    cbv zeta in Hpv, Hreal.
    set (res := Results.normal (results (effect pow m r duration step infl))) in *.
    assert (Hia : Summary.inflationAdjusted res == Summary.futureValue res)
      by now apply calculateInflationAdjusted_no_inflation.
    assert (Hp : presentValueFrom pow m infl 0 (Z.to_nat (duration * 12)) 0
                 == Summary.totalInvested res).
    { rewrite presentValueFrom_no_inflation by assumption.
      rewrite Z2Nat.id, inject_Z_mult by lia.
      change (Summary.totalInvested res) with (m * inject_Z duration * 12).
      change (inject_Z 12) with 12. ring. }
    repeat apply conj; [exact Hia| |].
    + rewrite Hpv. now apply Math_round_comp.
    + rewrite Hreal. apply Math_round_comp. rewrite Hia, Hp. reflexivity.
  - destruct (effect_stepUp_totals pow m r duration step infl) as (Ht & Hpv & Hreal).
    cbv zeta in Ht, Hpv, Hreal.
    set (res := Results.stepUp (results (effect pow m r duration step infl))) in *.
    assert (Hia : Summary.inflationAdjusted res == Summary.futureValue res)
      by now apply calculateInflationAdjusted_no_inflation.
    pose proof (investedAfter_no_inflation pow m step infl (Z.to_nat duration)
                  Hpow Hinfl) as Hp.
    rewrite <- Ht in Hp.
    repeat apply conj; [exact Hia| |].
    + rewrite Hpv. now apply Math_round_comp.
    + rewrite Hreal. apply Math_round_comp. rewrite Hia, Hp. reflexivity.
Qed.

Lemma effect_no_inflation_witness :
  let res := Results.stepUp (results (effect pow_whole 5000 12 10 10 0)) in
  Summary.inflationAdjusted res == Summary.futureValue res
  /\ Summary.totalInvestedInflationAdjusted res
     = Math_round (Summary.totalInvested res)
  /\ Summary.realReturns res = Math_round (Summary.returns res).
Proof.
  apply (effect_no_inflation pow_whole 5000 12 10 10 0).
  - apply pow_whole_one.
  - reflexivity.
  - lia.
  - right. reflexivity.
Defined.

(** X18.  The last record of the breakdown the effect sets shows the
    step-up half of the results, rounded: its total invested, year-end value
    and returns are the roundings of [totalInvested], [futureValue] and
    [returns]. *)
Theorem effect_last_record pow m r duration step infl rec :
  let st := effect pow m r duration step infl in
  nth_error (yearlyBreakdown st) (Z.to_nat duration - 1) = Some rec ->
  YearRecord.totalInvested rec
  = Math_round (Summary.totalInvested (Results.stepUp (results st)))
  /\ YearRecord.yearEndValue rec
     = Math_round (Summary.futureValue (Results.stepUp (results st)))
  /\ YearRecord.returns rec
     = Math_round (Summary.returns (Results.stepUp (results st))).
Proof.
  intros st Hnth.
  destruct (effect_stepUp_totals pow m r duration step infl) as (Ht & _).
  cbv zeta in Ht. fold st in Ht.
  change (yearlyBreakdown st) with (generateYearlyBreakdown m r duration step) in Hnth.
  apply generateYearlyBreakdown_nth in Hnth. destruct Hnth as [Hi ->].
  change (Summary.returns (Results.stepUp (results st)))
    with (Summary.futureValue (Results.stepUp (results st))
          - Summary.totalInvested (Results.stepUp (results st))).
  rewrite Ht.
  change (Summary.futureValue (Results.stepUp (results st)))
    with (calculateStepUpSIP m r duration step).
  rewrite calculateStepUpSIP_after.
  destruct (investedAfter_breakdownAfter pow m (r / 12 / 100) step infl
              (Z.to_nat duration)) as [-> _].
  destruct (breakdownAfter_stepUpAfter m (r / 12 / 100) step (Z.to_nat duration))
    as [<- _].
  unfold yearRecordAt. cbv zeta.
  cbn [YearRecord.totalInvested YearRecord.yearEndValue YearRecord.returns].
  replace (S (Z.to_nat duration - 1)) with (Z.to_nat duration) by lia.
  repeat apply conj; reflexivity.
Qed.

Lemma effect_last_record_witness :
  let st := effect pow_whole 5000 12 3 10 6 in
  let rec := YearRecord.mk 3 6050 72600 198600 238205 39605 in
  YearRecord.totalInvested rec
  = Math_round (Summary.totalInvested (Results.stepUp (results st)))
  /\ YearRecord.yearEndValue rec
     = Math_round (Summary.futureValue (Results.stepUp (results st)))
  /\ YearRecord.returns rec
     = Math_round (Summary.returns (Results.stepUp (results st))).
Proof.
  apply (effect_last_record pow_whole 5000 12 3 10 6). vm_compute. reflexivity.
Defined.

(** X19.  For [m >= 0], [stepUpPercent >= 0] and [duration >= 0] the
    step-up schedule pays in at least what the constant schedule pays in. *)
Theorem effect_stepUp_invests_more pow m r duration step infl :
  0 <= m -> 0 <= step -> (0 <= duration)%Z ->
  let res := results (effect pow m r duration step infl) in
  Summary.totalInvested (Results.normal res)
  <= Summary.totalInvested (Results.stepUp res).
Proof.
  intros Hm Hstep Hd res.
  destruct (effect_stepUp_totals pow m r duration step infl) as (Ht & _).
  cbv zeta in Ht. fold res in Ht. rewrite Ht.
  change (Summary.totalInvested (Results.normal res))
    with (m * inject_Z duration * 12).
  rewrite <- (Z2Nat.id duration) at 1 by lia.
  generalize (Z.to_nat duration). intros n.
  destruct (investedAfter_breakdownAfter pow m 0 step infl n) as [-> _].
  induction n as [|n IH].
  - change (m * 0 * 12 <= 0). lra.
  - destruct (breakdownAfter_stepUpAfter m 0 step n) as [_ Hc].
    destruct (stepUpAfter_dominates m 0 step n Hm ltac:(discriminate) Hstep)
      as [Hdom _].
    rewrite <- Hc in Hdom.
    rewrite breakdownAfter_S, breakdownYear_eq. cbv zeta. cbn [bd_totalInvested].
    rewrite paidIn_closed, Nat2Z.inj_succ. unfold Z.succ. rewrite inject_Z_plus.
    change (inject_Z (Z.of_nat 12)) with 12. change (inject_Z 1) with 1. lra.
Qed.

Lemma effect_stepUp_invests_more_witness :
  let res := results (effect pow_whole 5000 12 10 10 6) in
  Summary.totalInvested (Results.normal res)
  <= Summary.totalInvested (Results.stepUp res).
Proof.
  apply (effect_stepUp_invests_more pow_whole 5000 12 10 10 6);
    [discriminate|discriminate|lia].
Defined.

(** * Monotonicity of the future values *)

Lemma monthlyRate_le r r' : r <= r' -> r / 12 / 100 <= r' / 12 / 100.
Proof.
  intros H. unfold Qdiv. do 2 (apply Qmult_le_compat_r; [|discriminate]). exact H.
Qed.

Lemma stepUp_factor_le s s' : s <= s' -> 1 + s / 100 <= 1 + s' / 100.
Proof.
  intros H. apply Qplus_le_r. unfold Qdiv.
  apply Qmult_le_compat_r; [exact H|discriminate].
Qed.

Lemma compound_mono c c' rate rate' n v v' :
  0 <= c -> c <= c' -> 0 <= 1 + rate -> rate <= rate' -> 0 <= v -> v <= v' ->
  0 <= compound c rate n v /\ compound c rate n v <= compound c' rate' n v'.
Proof.
  intros Hc Hcc Hrate Hrr Hv Hvv. induction n as [|n [IH0 IH]].
  - split; assumption.
  - rewrite !compound_S. split.
    + apply Qmult_le_0_compat; lra.
    + apply Qmult_le_compat_nonneg; split; lra.
Qed.

Lemma stepUpAfter_mono m m' rate rate' s s' n :
  0 <= m -> m <= m' -> 0 <= 1 + rate -> rate <= rate' ->
  0 <= 1 + s / 100 -> s <= s' ->
  (0 <= su_currentMonthlyInvestment (stepUpAfter m rate s n)
   /\ su_currentMonthlyInvestment (stepUpAfter m rate s n)
      <= su_currentMonthlyInvestment (stepUpAfter m' rate' s' n))
  /\ (0 <= su_totalValue (stepUpAfter m rate s n)
      /\ su_totalValue (stepUpAfter m rate s n)
         <= su_totalValue (stepUpAfter m' rate' s' n)).
Proof.
  intros Hm Hmm Hrate Hrr Hs Hss.
  induction n as [|n [[IHc0 IHc] [IHv0 IHv]]].
  - repeat split; (assumption || apply Qle_refl).
  - rewrite !stepUpAfter_S, !stepUpYear_eq.
    cbn [su_currentMonthlyInvestment su_totalValue].
    pose proof (stepUp_factor_le s s' Hss) as Hf.
    split; [split|].
    + now apply Qmult_le_0_compat.
    + apply Qmult_le_compat_nonneg; split; assumption.
    + now apply compound_mono.
Qed.

(** X22.  Both future values grow with the inputs: for
    [0 <= m <= m'], [-1200 <= r <= r'], [-100 <= stepUpPercent <= stepUpPercent']
    and a horizon of [years >= 0] whole years, the larger inputs never give
    the smaller value. *)
Theorem futureValue_monotone m m' r r' s s' years :
  0 <= m -> m <= m' -> - (1200) <= r -> r <= r' -> - (100) <= s -> s <= s' ->
  (0 <= years)%Z ->
  calculateNormalSIP m r years <= calculateNormalSIP m' r' years
  /\ calculateStepUpSIP m r years s <= calculateStepUpSIP m' r' years s'.
Proof.
  intros Hm Hmm Hr Hrr Hs Hss Hy.
  pose proof (monthlyRate_factor_nonneg r Hr) as Hrate.
  pose proof (monthlyRate_le r r' Hrr) as Hrate'.
  split.
  - rewrite !calculateNormalSIP_compound by exact Hy.
    apply (compound_mono m m' (r / 12 / 100) (r' / 12 / 100)
             (Z.to_nat (years * 12)) 0 0 Hm Hmm Hrate Hrate');
      apply Qle_refl.
  - rewrite !calculateStepUpSIP_after.
    apply (stepUpAfter_mono m m' (r / 12 / 100) (r' / 12 / 100) s s'
             (Z.to_nat years) Hm Hmm Hrate Hrate' (stepUp_factor_nonneg s Hs) Hss).
Qed.

Lemma futureValue_monotone_witness :
  calculateNormalSIP 5000 12 10 <= calculateNormalSIP 6000 15 10
  /\ calculateStepUpSIP 5000 12 10 5 <= calculateStepUpSIP 6000 15 10 10.
Proof.
  apply (futureValue_monotone 5000 6000 12 15 5 10 10); try discriminate.
Defined.

(** X23.  For [m >= 0], [r >= 0] and [stepUpPercent >= -100] a longer
    horizon never gives a smaller future value. *)
Theorem futureValue_grows_with_horizon m r s years years' :
  0 <= m -> 0 <= r -> - (100) <= s -> (0 <= years <= years')%Z ->
  calculateNormalSIP m r years <= calculateNormalSIP m r years'
  /\ calculateStepUpSIP m r years s <= calculateStepUpSIP m r years' s.
Proof.
  intros Hm Hr Hs Hy.
  pose proof (monthlyRate_nonneg r Hr) as Hrate.
  split.
  - rewrite !calculateNormalSIP_compound by lia.
    replace (Z.to_nat (years' * 12))
      with (Z.to_nat ((years' - years) * 12) + Z.to_nat (years * 12))%nat by lia.
    rewrite compound_add.
    pose proof (compound_lower m (r / 12 / 100) (Z.to_nat (years * 12)) 0 Hm Hrate
                  ltac:(apply Qle_refl)) as H0.
    assert (Hn : 0 <= inject_Z (Z.of_nat (Z.to_nat (years * 12))) * m).
    { apply Qmult_le_0_compat; [|exact Hm]. rewrite <- (Zle_Qle 0). lia. }
    assert (Hv : 0 <= compound m (r / 12 / 100) (Z.to_nat (years * 12)) 0) by lra.
    pose proof (compound_lower m (r / 12 / 100) (Z.to_nat ((years' - years) * 12))
                  _ Hm Hrate Hv) as H1.
    assert (0 <= inject_Z (Z.of_nat (Z.to_nat ((years' - years) * 12))) * m).
    { apply Qmult_le_0_compat; [|exact Hm]. rewrite <- (Zle_Qle 0). lia. }
    lra.
  - rewrite !calculateStepUpSIP_after.
    assert (Hle : (Z.to_nat years <= Z.to_nat years')%nat) by lia.
    induction Hle as [|n Hle IH]; [apply Qle_refl|].
    eapply Qle_trans; [exact IH|].
    destruct (stepUpAfter_mono m m (r / 12 / 100) (r / 12 / 100) s s n Hm
                ltac:(apply Qle_refl) ltac:(lra) ltac:(apply Qle_refl)
                (stepUp_factor_nonneg s Hs) ltac:(apply Qle_refl))
      as [[Hc _] [Hv _]].
    rewrite stepUpAfter_S, stepUpYear_eq. cbn [su_totalValue].
    pose proof (compound_lower _ (r / 12 / 100) 12 _ Hc Hrate Hv) as Hlow.
    change (inject_Z (Z.of_nat 12)) with 12 in Hlow. lra.
Qed.

Lemma futureValue_grows_with_horizon_witness :
  calculateNormalSIP 5000 12 5 <= calculateNormalSIP 5000 12 10
  /\ calculateStepUpSIP 5000 12 5 10 <= calculateStepUpSIP 5000 12 10 10.
Proof.
  apply (futureValue_grows_with_horizon 5000 12 10 5 10); try discriminate.
  lia.
Defined.

(** * The CSV export *)

Module CsvExport.
Import String Ascii.

Lemma string_forall_append p s t :
  string_forall p (String.append s t) = string_forall p s && string_forall p t.
Proof.
  induction s as [|a s IH]; [reflexivity|].
  cbn [String.append string_forall]. now rewrite IH, andb_assoc.
Qed.

Lemma string_forall_concat p sep l :
  string_forall p sep = true ->
  Forall (fun s => string_forall p s = true) l ->
  string_forall p (String.concat sep l) = true.
Proof.
  intros Hsep. induction 1 as [|s l Hs Hl IH]; [reflexivity|].
  cbn [String.concat]. destruct l as [|s' l']; [exact Hs|].
  now rewrite !string_forall_append, Hs, Hsep, IH.
Qed.

Lemma string_forall_weaken (p q : ascii -> bool) s :
  (forall a, p a = true -> q a = true) ->
  string_forall p s = true -> string_forall q s = true.
Proof.
  intros Hpq. induction s as [|a s IH]; [reflexivity|].
  cbn [string_forall]. rewrite !andb_true_iff. intros [Ha Hs].
  split; [now apply Hpq|now apply IH].
Qed.

(** A piece without the separator is not split; a separator after it ends
    it. *)
Lemma split_on_whole c s :
  string_forall (fun a => negb (Ascii.eqb a c)) s = true -> split_on c s = [s].
Proof.
  induction s as [|a s IH]; [reflexivity|].
  cbn [string_forall split_on]. rewrite andb_true_iff. intros [Ha Hs].
  apply negb_true_iff in Ha. now rewrite Ha, IH.
Qed.

Lemma split_on_piece c s rest :
  string_forall (fun a => negb (Ascii.eqb a c)) s = true ->
  split_on c (String.append s (String c rest)) = s :: split_on c rest.
Proof.
  induction s as [|a s IH].
  - intros _. cbn [String.append split_on]. now rewrite Ascii.eqb_refl.
  - cbn [string_forall String.append split_on]. rewrite andb_true_iff.
    intros [Ha Hs]. apply negb_true_iff in Ha. now rewrite Ha, IH.
Qed.

(** Joining pieces that are free of the separator, then splitting, gives
    the pieces back. *)
Lemma split_on_concat c l :
  l <> [] ->
  Forall (fun s => string_forall (fun a => negb (Ascii.eqb a c)) s = true) l ->
  split_on c (String.concat (String c EmptyString) l) = l.
Proof.
  intros Hne Hall. induction Hall as [|s l Hs Hl IH]; [contradiction|].
  cbn [String.concat]. destruct l as [|s' l'].
  - now apply split_on_whole.
  - cbn [String.append]. rewrite split_on_piece by exact Hs.
    f_equal. apply IH. discriminate.
Qed.

Lemma string_of_uint_chars d :
  string_forall numberChar (DecimalString.NilEmpty.string_of_uint d) = true.
Proof. induction d; cbn; assumption || reflexivity. Qed.

Lemma Number_toString_chars n : string_forall numberChar (Number_toString n) = true.
Proof.
  unfold Number_toString.
  destruct (Z.to_int n) as [d|d]; cbn [DecimalString.NilZero.string_of_int].
  - destruct d; try apply (string_of_uint_chars (_ d)); reflexivity.
  - cbn [string_forall]. destruct d; try apply (string_of_uint_chars (_ d)); reflexivity.
Qed.

Lemma Number_toString_free c n :
  numberChar c = false ->
  string_forall (fun a => negb (Ascii.eqb a c)) (Number_toString n) = true.
Proof.
  intros Hc. apply (string_forall_weaken numberChar); [|apply Number_toString_chars].
  intros a Ha. apply negb_true_iff. destruct (Ascii.eqb_spec a c); [|reflexivity].
  subst a. congruence.
Qed.

Lemma readNumber_toString n : readNumber (Number_toString n) = Some n.
Proof.
  unfold readNumber, Number_toString.
  rewrite DecimalString.NilZero.isi.
  - cbn [option_map]. now rewrite DecimalZ.of_to.
  - destruct n; cbn; try discriminate.
    intros [= H]. now apply DecimalPos.Unsigned.to_uint_nonnil in H.
  - destruct n; cbn; try discriminate.
    intros [= H]. now apply DecimalPos.Unsigned.to_uint_nonnil in H.
Qed.

Lemma downloadYearlyCSV_lines bd content :
  downloadYearlyCSV bd = Some content ->
  content = String.concat newline (headerLine :: map recordLine bd).
Proof.
  unfold downloadYearlyCSV. destruct (List.length bd =? 0)%nat; [discriminate|].
  cbv zeta. intros [= <-]. cbn [map]. f_equal. f_equal.
  now rewrite map_map.
Qed.

Lemma recordLine_cells r :
  split_on ","%char (recordLine r)
  = map Number_toString
      [YearRecord.year r; YearRecord.monthlyInvestment r;
       YearRecord.yearlyInvestment r; YearRecord.totalInvested r;
       YearRecord.yearEndValue r; YearRecord.returns r].
Proof.
  unfold recordLine, Array_join, comma. rewrite map_map. cbn [Cell_toString].
  apply (split_on_concat ","%char); [discriminate|].
  apply Forall_forall. intros s Hs. apply in_map_iff in Hs.
  destruct Hs as [n [<- _]]. now apply Number_toString_free.
Qed.

Lemma recordLine_free r :
  string_forall (fun a => negb (Ascii.eqb a "010"%char)) (recordLine r) = true.
Proof.
  unfold recordLine, Array_join. apply string_forall_concat; [reflexivity|].
  apply Forall_forall. intros s Hs. rewrite map_map in Hs. apply in_map_iff in Hs.
  destruct Hs as [n [<- _]]. now apply Number_toString_free.
Qed.

Lemma content_lines bd :
  split_on "010"%char (String.concat newline (headerLine :: map recordLine bd))
  = headerLine :: map recordLine bd.
Proof.
  apply (split_on_concat "010"%char); [discriminate|].
  constructor; [reflexivity|].
  apply Forall_forall. intros s Hs. apply in_map_iff in Hs.
  destruct Hs as [r [<- _]]. apply recordLine_free.
Qed.

Lemma readRecord_line r : readRecord (recordLine r) = Some r.
Proof.
  unfold readRecord. rewrite recordLine_cells. cbn [map].
  rewrite !readNumber_toString. now destruct r.
Qed.

(** X20.  Nothing is exported for an empty breakdown.  Otherwise the file
    has one line per record after the header line, and every line has
    exactly six comma-separated cells; the cells of the first line are the
    six column titles. *)
Theorem downloadYearlyCSV_table bd :
  (downloadYearlyCSV bd = None <-> bd = [])
  /\ forall content,
       downloadYearlyCSV bd = Some content ->
       exists header rows,
         split_on "010"%char content = header :: rows
         /\ List.length rows = List.length bd
         /\ split_on ","%char header
            = ["Year"; "Monthly SIP"; "Yearly Investment"; "Total Invested";
               "Year-End Value"; "Returns"]%string
         /\ Forall (fun line => List.length (split_on ","%char line) = 6%nat) rows.
Proof.
  split.
  - unfold downloadYearlyCSV. destruct bd; cbn; split; congruence.
  - intros content Hc. apply downloadYearlyCSV_lines in Hc. subst content.
    exists headerLine, (map recordLine bd). rewrite content_lines.
    repeat apply conj; try reflexivity.
    + apply length_map.
    + apply Forall_forall. intros line Hl. apply in_map_iff in Hl.
      destruct Hl as [r [<- _]]. now rewrite recordLine_cells.
Qed.

Lemma downloadYearlyCSV_table_witness :
  exists header rows,
    split_on "010"%char
      (String.concat newline
         [headerLine; recordLine (YearRecord.mk 1 1000 12000 12000 12809 809)])
    = header :: rows
    /\ List.length rows = 1%nat
    /\ split_on ","%char header
       = ["Year"; "Monthly SIP"; "Yearly Investment"; "Total Invested";
          "Year-End Value"; "Returns"]%string
    /\ Forall (fun line => List.length (split_on ","%char line) = 6%nat) rows.
Proof.
  apply (proj2 (downloadYearlyCSV_table
                  [YearRecord.mk 1 1000 12000 12000 12809 809])).
  reflexivity.
Defined.

Lemma readRecords_lines bd : readRecords (map recordLine bd) = Some bd.
Proof.
  induction bd as [|r bd IH]; [reflexivity|].
  cbn [map readRecords]. now rewrite readRecord_line, IH.
Qed.

(** X21.  The export loses nothing: for records whose numbers are printed
    in plain decimal notation, splitting the file into lines and cells and
    reading the cells as numbers gives the breakdown back. *)
Theorem downloadYearlyCSV_read_back bd content :
  Forall plainRecord bd ->
  downloadYearlyCSV bd = Some content ->
  readCSV content = Some bd.
Proof.
  intros _ Hc. apply downloadYearlyCSV_lines in Hc. subst content.
  unfold readCSV. rewrite content_lines. apply readRecords_lines.
Qed.

Lemma downloadYearlyCSV_read_back_witness :
  readCSV (String.concat newline
             [headerLine; recordLine (YearRecord.mk 1 1000 12000 12000 12809 809)])
  = Some [YearRecord.mk 1 1000 12000 12000 12809 809].
Proof.
  apply (downloadYearlyCSV_read_back [YearRecord.mk 1 1000 12000 12000 12809 809]).
  - repeat constructor; cbn; unfold plainNumber; cbn; lia.
  - reflexivity.
Defined.

End CsvExport.
